(** * Credit-card statement parser: router and issuer profiles

    A shallow embedding of [sure-financials.py]: the five issuer parsers
    (HDFC, Chase, SBI, Amex, Citi), the regular-expression searches their
    field rules perform, and the router [parse_credit_card_statement].

    Python [str] values are modelled as lists of characters over the
    ASCII alphabet: [upper] and [lower] act on the letters A-Z and a-z,
    [\d] is 0-9, [\s] is the ASCII white space of Python (codes 9-13 and
    28-32) and [.] is any character but the newline.  [None] is
    [Datatypes.None]; a result dictionary is an association list in
    insertion order.  [re.search] is modelled by a backtracking matcher
    that tries the alternatives of the pattern in the order Python does,
    at each offset of the text from left to right. *)

From Stdlib Require Import Ascii String List Bool Arith Lia.
Import ListNotations.

Set Implicit Arguments.

(** ** Python strings *)

Definition str := list ascii.

Definition of_string (x : string) : str := list_ascii_of_string x.
Coercion of_string : string >-> str.

Local Open Scope string_scope.
Local Open Scope list_scope.
Local Open Scope nat_scope.

Module PyStr.

Definition code (c : ascii) : nat := nat_of_ascii c.

Definition is_lower (c : ascii) : bool := (97 <=? code c) && (code c <=? 122).
Definition is_upper (c : ascii) : bool := (65 <=? code c) && (code c <=? 90).

(** [c.upper()] and [c.lower()] on one ASCII character. *)
Definition upper_char (c : ascii) : ascii :=
  if is_lower c then ascii_of_nat (code c - 32) else c.
Definition lower_char (c : ascii) : ascii :=
  if is_upper c then ascii_of_nat (code c + 32) else c.

(** [s.upper()] *)
Definition upper (s : str) : str := map upper_char s.
Definition lower (s : str) : str := map lower_char s.

(** [s.startswith(p)] *)
Fixpoint starts_with (p s : str) : bool :=
  match p, s with
  | [], _ => true
  | _ :: _, [] => false
  | a :: p', b :: s' => Ascii.eqb a b && starts_with p' s'
  end.

(** [p in s] for two strings: [p] occurs in [s] at some offset. *)
Fixpoint contains (p s : str) : bool :=
  starts_with p s ||
  match s with
  | [] => false
  | _ :: s' => contains p s'
  end.

(** Declarative reading of "occurs anywhere in the text". *)
Definition occurs_in (p s : str) : Prop :=
  exists a b, s = a ++ p ++ b.

End PyStr.
Import PyStr.

(** ** The parser classes *)

Inductive parser_class :=
| BaseStatementParser
| HDFCParser
| ChaseParser
| SBIParser
| AmexParser
| CitiParser.

Definition parser_class_eqb (a b : parser_class) : bool :=
  match a, b with
  | BaseStatementParser, BaseStatementParser
  | HDFCParser, HDFCParser
  | ChaseParser, ChaseParser
  | SBIParser, SBIParser
  | AmexParser, AmexParser
  | CitiParser, CitiParser => true
  | _, _ => false
  end.

(** The issuers in the order the router tests them. *)
Definition issuers : list parser_class :=
  [HDFCParser; ChaseParser; SBIParser; AmexParser; CitiParser].

(** ** Router signatures

    The condition of each branch of the [if]/[elif] chain. *)
Definition signature (cls : parser_class) (text_content : str) : bool :=
  match cls with
  | BaseStatementParser => false
  | HDFCParser =>
      contains "HDFC" text_content || contains "H.D.F.C" text_content
  | ChaseParser =>
      contains "CHASE" (upper text_content) || contains "JPMORGAN" (upper text_content)
  | SBIParser =>
      contains "SBI Card" text_content || contains "State Bank of India" text_content
  | AmexParser =>
      contains "American Express" text_content || contains "AMEX" text_content
  | CitiParser =>
      contains "Citi" text_content || contains "Citibank" text_content
  end.

(** The router proper: which parser class is instantiated, if any. *)
Definition detect (text_content : str) : option parser_class :=
  if signature HDFCParser text_content then Some HDFCParser
  else if signature ChaseParser text_content then Some ChaseParser
  else if signature SBIParser text_content then Some SBIParser
  else if signature AmexParser text_content then Some AmexParser
  else if signature CitiParser text_content then Some CitiParser
  else None.

(** ** Regular expressions

    The fragment of Python's [re] syntax that the field rules use: literal
    characters, the classes [\d], [\s], [.] and bracket sets, sequencing,
    alternation, an optional group, bounded and unbounded repetition of a
    one-character set (greedy or lazy), and the capturing group. *)

Module Re.

(** A set of characters: what one position of the pattern may consume. *)
Inductive cset :=
| CChar (c : ascii)
| CRange (lo hi : ascii)
| CDigit
| CSpace
| CDot
| CUnion (a b : cset).

Fixpoint cset_mem (cs : cset) (c : ascii) : bool :=
  match cs with
  | CChar x => Ascii.eqb x c
  | CRange lo hi => (code lo <=? code c) && (code c <=? code hi)
  | CDigit => (48 <=? code c) && (code c <=? 57)
  | CSpace =>
      ((9 <=? code c) && (code c <=? 13)) ||
      ((28 <=? code c) && (code c <=? 32))
  | CDot => negb (code c =? 10)
  | CUnion a b => cset_mem a c || cset_mem b c
  end.

(** Flags of a search: [true] stands for [re.IGNORECASE]. *)
Definition flags := bool.
Definition IGNORECASE : flags := true.
Definition NOFLAG : flags := false.

(** Whether character [c] of the text is accepted by the set [cs].  Under
    [re.IGNORECASE] a character is accepted when one of its case variants
    is in the set; on the ASCII alphabet of this model the case variants
    of a letter are its upper-case and its lower-case form. *)
Definition accepts (ic : flags) (cs : cset) (c : ascii) : bool :=
  if ic then cset_mem cs (lower_char c) || cset_mem cs (upper_char c)
  else cset_mem cs c.

Inductive regex :=
| Eps
| Chars (cs : cset)
| Seq (a b : regex)
| Alt (a b : regex)
| Opt (a : regex)
| Rep (cs : cset) (lo : nat) (hi : option nat) (greedy : bool)
| Group (a : regex).

(** A literal word of the pattern. *)
Fixpoint lit_chars (w : str) : regex :=
  match w with
  | [] => Eps
  | c :: w' => Seq (Chars (CChar c)) (lit_chars w')
  end.
Definition lit (w : string) : regex := lit_chars w.

Definition reached (hi : option nat) : bool :=
  match hi with
  | Some 0 => true
  | _ => false
  end.

Section Matcher.
Variable A : Type.

(** Greedy repetition [x{lo,hi}] of a one-character set: consume as many
    characters as possible, then give characters back one at a time until
    the rest of the pattern matches. *)
Fixpoint rep_greedy (ok : ascii -> bool) (lo : nat) (hi : option nat)
         (s : str) (k : str -> option A) : option A :=
  let stop := match lo with 0 => k s | S _ => None end in
  if reached hi then stop
  else
    match s with
    | [] => stop
    | c :: s' =>
        if ok c then
          match rep_greedy ok (pred lo) (option_map pred hi) s' k with
          | Some r => Some r
          | None => stop
          end
        else stop
    end.

(** Lazy repetition [x{lo,hi}?]: consume as few characters as possible,
    taking one more each time the rest of the pattern fails. *)
Fixpoint rep_lazy (ok : ascii -> bool) (lo : nat) (hi : option nat)
         (s : str) (k : str -> option A) : option A :=
  let stop := match lo with 0 => k s | S _ => None end in
  match stop with
  | Some r => Some r
  | None =>
      if reached hi then None
      else
        match s with
        | [] => None
        | c :: s' =>
            if ok c then rep_lazy ok (pred lo) (option_map pred hi) s' k
            else None
        end
  end.

(** The backtracking matcher, anchored at the head of [s].  [g] is the
    text captured by group 1 so far, [k] the rest of the match. *)
Fixpoint rmatch (ic : flags) (r : regex) (s : str) (g : option str)
         (k : str -> option str -> option A) : option A :=
  match r with
  | Eps => k s g
  | Chars cs =>
      match s with
      | [] => None
      | c :: s' => if accepts ic cs c then k s' g else None
      end
  | Seq a b => rmatch ic a s g (fun s1 g1 => rmatch ic b s1 g1 k)
  | Alt a b =>
      match rmatch ic a s g k with
      | Some x => Some x
      | None => rmatch ic b s g k
      end
  | Opt a =>
      match rmatch ic a s g k with
      | Some x => Some x
      | None => k s g
      end
  | Rep cs lo hi true => rep_greedy (accepts ic cs) lo hi s (fun s1 => k s1 g)
  | Rep cs lo hi false => rep_lazy (accepts ic cs) lo hi s (fun s1 => k s1 g)
  | Group a =>
      rmatch ic a s g
        (fun s1 _ => k s1 (Some (firstn (List.length s - List.length s1) s)))
  end.

End Matcher.

(** A match object: where the match starts and what group 1 captured. *)
Record match_obj := { m_start : nat; group1 : option str }.

(** [re.match]: a match anchored at the head of the text. *)
Definition match_here (r : regex) (s : str) (ic : flags) : option (option str) :=
  rmatch ic r s None (fun _ g => Some g).

(** The scan of [re.search]: the leftmost offset at which the pattern
    matches, [pos] being the offset of [s] in the whole text. *)
Fixpoint search_from (r : regex) (s : str) (ic : flags) (pos : nat)
  : option match_obj :=
  match match_here r s ic with
  | Some g => Some {| m_start := pos; group1 := g |}
  | None =>
      match s with
      | [] => None
      | _ :: s' => search_from r s' ic (S pos)
      end
  end.

(** [re.search(pattern, text, flags)] *)
Definition search (r : regex) (text : str) (ic : flags) : option match_obj :=
  search_from r text ic 0.

End Re.
Import Re.

(** ** Pattern pieces shared by the field rules *)

Arguments CChar c%_char.
Arguments CRange (lo hi)%_char.

(** Concatenation of the items of a pattern, left to right. *)
Definition cat (items : list regex) : regex := fold_right Seq Eps items.

Definition ws : regex := Chars CSpace.                         (* \s  *)
Definition ws0 : regex := Rep CSpace 0 None true.              (* \s* *)
Definition ws1 : regex := Rep CSpace 1 None true.              (* \s+ *)
Definition digits (lo hi : nat) : regex :=                     (* \d{lo,hi} *)
  Rep CDigit lo (Some hi) true.
Definition seps : regex :=                                     (* [:\-\s]* *)
  Rep (CUnion (CChar ":") (CUnion (CChar "-") CSpace)) 0 None true.
Definition any_lazy : regex := Rep CDot 0 None false.          (* .*? *)
Definition any_greedy : regex := Rep CDot 0 None true.         (* .*  *)
Definition amount : regex :=                                   (* [\d,]+\.\d{2} *)
  cat [Rep (CUnion CDigit (CChar ",")) 1 None true; lit "."; digits 2 2].
Definition letters3 : regex :=                                 (* [A-Za-z]{3} *)
  Rep (CUnion (CRange "A" "Z") (CRange "a" "z")) 3 (Some 3) true.
(** [\d{2}/\d{2}/\d{y1,y2}] *)
Definition slash_date (y1 y2 : nat) : regex :=
  cat [digits 2 2; lit "/"; digits 2 2; lit "/"; digits y1 y2].
(** [[A-Za-z]{3}\s\d{1,2},?\s\d{4}] *)
Definition month_date : regex :=
  cat [letters3; ws; digits 1 2; Opt (lit ","); ws; digits 4 4].

(** The interpolation [f"{v}"] of a value that is a string or [None]. *)
Definition fmt (v : option str) : str :=
  match v with
  | Some s => s
  | None => "None"
  end.

(** ** The patterns, one per [re.search] call of the source *)

Module Pat.

(* [X\d]{8,12}(\d{4}) *)
Definition hdfc_card_last_4 : regex :=
  cat [Rep (CUnion (CChar "X") CDigit) 8 (Some 12) true; Group (digits 4 4)].
(* Statement\s+Date\s*[:\-\s]*(\d{2}/\d{2}/\d{4}) *)
Definition hdfc_billing_cycle : regex :=
  cat [lit "Statement"; ws1; lit "Date"; ws0; seps; Group (slash_date 4 4)].
(* Payment\s+Due\s+Date\s*[:\-\s]*(\d{2}/\d{2}/\d{4}) *)
Definition hdfc_due_date : regex :=
  cat [lit "Payment"; ws1; lit "Due"; ws1; lit "Date"; ws0; seps;
       Group (slash_date 4 4)].
(* Total\s+Amount\s+Due\s*[:\-\s]*.*?([\d,]+\.\d{2}) *)
Definition hdfc_total_balance : regex :=
  cat [lit "Total"; ws1; lit "Amount"; ws1; lit "Due"; ws0; seps; any_lazy;
       Group amount].
(* Debits\s+([\d,]+\.\d{2}) *)
Definition hdfc_transaction_summary : regex :=
  cat [lit "Debits"; ws1; Group amount].

(* (?:Account|ending)\s+(?:Number)?\s*(?:in|:)?\s*(\d{4}) *)
Definition chase_card_last_4 : regex :=
  cat [Alt (lit "Account") (lit "ending"); ws1; Opt (lit "Number"); ws0;
       Opt (Alt (lit "in") (lit ":")); ws0; Group (digits 4 4)].
(* Opening/Closing\s+Date\s+(\d{2}/\d{2}/\d{2,4}\s*-\s*\d{2}/\d{2}/\d{2,4}) *)
Definition chase_billing_cycle : regex :=
  cat [lit "Opening/Closing"; ws1; lit "Date"; ws1;
       Group (cat [slash_date 2 4; ws0; lit "-"; ws0; slash_date 2 4])].
(* Payment\s+Due\s+Date\s+(\d{1,2}/\d{1,2}/\d{2,4}) *)
Definition chase_due_date : regex :=
  cat [lit "Payment"; ws1; lit "Due"; ws1; lit "Date"; ws1;
       Group (cat [digits 1 2; lit "/"; digits 1 2; lit "/"; digits 2 4])].
(* New\s+Balance\s.*?\$([\d,]+\.\d{2}) *)
Definition chase_total_balance : regex :=
  cat [lit "New"; ws1; lit "Balance"; ws; any_lazy; lit "$"; Group amount].
(* Purchases\s+(?:and Adjustments)?\s*\$([\d,]+\.\d{2}) *)
Definition chase_transaction_summary : regex :=
  cat [lit "Purchases"; ws1; Opt (lit "and Adjustments"); ws0; lit "$";
       Group amount].

(* XXXX\s+(\d{4}) *)
Definition sbi_card_last_4 : regex :=
  cat [lit "XXXX"; ws1; Group (digits 4 4)].
(* Statement\s+Date\s*[:\-\s]*(\d{2}/\d{2}/\d{4}) *)
Definition sbi_billing_cycle : regex :=
  cat [lit "Statement"; ws1; lit "Date"; ws0; seps; Group (slash_date 4 4)].
(* Payment\s+Due\s+Date\s*[:\-\s]*(\d{2}/\d{2}/\d{2,4}) *)
Definition sbi_due_date : regex :=
  cat [lit "Payment"; ws1; lit "Due"; ws1; lit "Date"; ws0; seps;
       Group (slash_date 2 4)].
(* Total\s+Amount\s+Due\s*[:\-\s]*.*?([\d,]+\.\d{2}) *)
Definition sbi_total_balance : regex :=
  cat [lit "Total"; ws1; lit "Amount"; ws1; lit "Due"; ws0; seps; any_lazy;
       Group amount].
(* Debits\s+([\d,]+\.\d{2}) *)
Definition sbi_transaction_summary : regex :=
  cat [lit "Debits"; ws1; Group amount].

(* ending\s+in\s+(\d{4,5}) *)
Definition amex_card_last_4 : regex :=
  cat [lit "ending"; ws1; lit "in"; ws1; Group (digits 4 5)].
(* Closing\s+Date\s+([A-Za-z]{3}\s\d{1,2},?\s\d{4}) *)
Definition amex_billing_cycle : regex :=
  cat [lit "Closing"; ws1; lit "Date"; ws1; Group month_date].
(* Payment\s+Due\s+Date\s+([A-Za-z]{3}\s\d{1,2},?\s\d{4}) *)
Definition amex_due_date : regex :=
  cat [lit "Payment"; ws1; lit "Due"; ws1; lit "Date"; ws1; Group month_date].
(* New\s+Balance\s.*?\$([\d,]+\.\d{2}) *)
Definition amex_total_balance : regex :=
  cat [lit "New"; ws1; lit "Balance"; ws; any_lazy; lit "$"; Group amount].
(* New\s+charges\s.*?\$([\d,]+\.\d{2}) *)
Definition amex_transaction_summary : regex :=
  cat [lit "New"; ws1; lit "charges"; ws; any_lazy; lit "$"; Group amount].

(* (?:Account|Card)\s+.*(\d{4}) *)
Definition citi_card_last_4 : regex :=
  cat [Alt (lit "Account") (lit "Card"); ws1; any_greedy; Group (digits 4 4)].
(* Statement\s+Date\s+(\d{2}/\d{2}/\d{4}) *)
Definition citi_billing_cycle : regex :=
  cat [lit "Statement"; ws1; lit "Date"; ws1; Group (slash_date 4 4)].
(* Payment\s+Due\s+Date\s+(\d{2}/\d{2}/\d{4}) *)
Definition citi_due_date : regex :=
  cat [lit "Payment"; ws1; lit "Due"; ws1; lit "Date"; ws1;
       Group (slash_date 4 4)].
(* New\s+Balance\s.*?\$([\d,]+\.\d{2}) *)
Definition citi_total_balance : regex :=
  cat [lit "New"; ws1; lit "Balance"; ws; any_lazy; lit "$"; Group amount].
(* Purchases\s.*?\$([\d,]+\.\d{2}) *)
Definition citi_transaction_summary : regex :=
  cat [lit "Purchases"; ws; any_lazy; lit "$"; Group amount].

End Pat.

(** ** The parser methods

    Each method takes the class of [self] and [self.text].  A class that
    does not override a method inherits the [BaseStatementParser] one. *)

(** The loop [for card in keywords: if card.upper() in self.text.upper():
    return f"<prefix>{card}"], followed by the fallback [return]. *)
Fixpoint scan_keywords (prefix : str) (keywords : list string)
         (fallback : str) (text : str) : str :=
  match keywords with
  | [] => fallback
  | card :: rest =>
      if contains (upper card) (upper text) then prefix ++ of_string card
      else scan_keywords prefix rest fallback text
  end.

Definition keywords (cls : parser_class) : list string :=
  match cls with
  | BaseStatementParser => []
  | HDFCParser =>
      ["Infinia"; "Regalia"; "Millennia"; "MoneyBack"; "Diners Club";
       "Business MoneyBack"]
  | ChaseParser => ["Sapphire"; "Freedom"; "Ink"; "Slate"; "Amazon"]
  | SBIParser => ["Elite"; "Prime"; "SimplyClick"; "SimplySave"; "Aurum"]
  | AmexParser => ["Platinum"; "Gold"; "Green"; "EveryDay"; "Blue Cash"]
  | CitiParser => ["Premier"; "Prestige"; "Double Cash"; "Rewards"; "Simplicity"]
  end.

Definition get_bank_name (cls : parser_class) : str :=
  match cls with
  | BaseStatementParser => "Unknown Bank"
  | HDFCParser => "HDFC Bank"
  | ChaseParser => "Chase Bank"
  | SBIParser => "SBI Card"
  | AmexParser => "American Express"
  | CitiParser => "Citibank"
  end.

Definition extract_card_variant (cls : parser_class) (text : str) : str :=
  match cls with
  | BaseStatementParser => "Standard Credit Card"
  | HDFCParser => scan_keywords "HDFC " (keywords HDFCParser) "HDFC Credit Card" text
  | ChaseParser => scan_keywords "Chase " (keywords ChaseParser) "Chase Credit Card" text
  | SBIParser => scan_keywords "SBI " (keywords SBIParser) "SBI Credit Card" text
  | AmexParser => scan_keywords "Amex " (keywords AmexParser) "Amex Card" text
  | CitiParser => scan_keywords "Citi " (keywords CitiParser) "Citi Card" text
  end.

(** [match.group(1) if match else None] *)
Definition group1_or_none (m : option match_obj) : option str :=
  match m with
  | Some mo => group1 mo
  | None => None
  end.

(** [f"<caption>{match.group(1)}" if match else None] *)
Definition caption_or_none (caption : str) (m : option match_obj) : option str :=
  match m with
  | Some mo => Some (caption ++ fmt (group1 mo))
  | None => None
  end.

Definition extract_card_last_4 (cls : parser_class) (text : str) : option str :=
  match cls with
  | BaseStatementParser => None
  | HDFCParser => group1_or_none (search Pat.hdfc_card_last_4 text NOFLAG)
  | ChaseParser => group1_or_none (search Pat.chase_card_last_4 text IGNORECASE)
  | SBIParser => group1_or_none (search Pat.sbi_card_last_4 text NOFLAG)
  | AmexParser => group1_or_none (search Pat.amex_card_last_4 text IGNORECASE)
  | CitiParser => group1_or_none (search Pat.citi_card_last_4 text IGNORECASE)
  end.

Definition extract_billing_cycle (cls : parser_class) (text : str) : option str :=
  match cls with
  | BaseStatementParser => None
  | HDFCParser =>
      caption_or_none "Ends on " (search Pat.hdfc_billing_cycle text IGNORECASE)
  | ChaseParser => group1_or_none (search Pat.chase_billing_cycle text IGNORECASE)
  | SBIParser =>
      caption_or_none "Statement generated on "
        (search Pat.sbi_billing_cycle text IGNORECASE)
  | AmexParser =>
      caption_or_none "Closing Date: " (search Pat.amex_billing_cycle text IGNORECASE)
  | CitiParser =>
      caption_or_none "Statement Date: " (search Pat.citi_billing_cycle text IGNORECASE)
  end.

Definition extract_due_date (cls : parser_class) (text : str) : option str :=
  match cls with
  | BaseStatementParser => None
  | HDFCParser => group1_or_none (search Pat.hdfc_due_date text IGNORECASE)
  | ChaseParser => group1_or_none (search Pat.chase_due_date text IGNORECASE)
  | SBIParser => group1_or_none (search Pat.sbi_due_date text IGNORECASE)
  | AmexParser => group1_or_none (search Pat.amex_due_date text IGNORECASE)
  | CitiParser => group1_or_none (search Pat.citi_due_date text IGNORECASE)
  end.

Definition extract_total_balance (cls : parser_class) (text : str) : option str :=
  match cls with
  | BaseStatementParser => None
  | HDFCParser => group1_or_none (search Pat.hdfc_total_balance text IGNORECASE)
  | ChaseParser => group1_or_none (search Pat.chase_total_balance text IGNORECASE)
  | SBIParser => group1_or_none (search Pat.sbi_total_balance text IGNORECASE)
  | AmexParser => group1_or_none (search Pat.amex_total_balance text IGNORECASE)
  | CitiParser => group1_or_none (search Pat.citi_total_balance text IGNORECASE)
  end.

Definition extract_transaction_summary (cls : parser_class) (text : str)
  : option str :=
  match cls with
  | BaseStatementParser => Some (of_string "Summary not detected")
  | HDFCParser =>
      caption_or_none "Total Debits: "
        (search Pat.hdfc_transaction_summary text IGNORECASE)
  | ChaseParser =>
      caption_or_none "Total Purchases: $"
        (search Pat.chase_transaction_summary text IGNORECASE)
  | SBIParser =>
      caption_or_none "Total Debits: "
        (search Pat.sbi_transaction_summary text IGNORECASE)
  | AmexParser =>
      caption_or_none "New Charges: $"
        (search Pat.amex_transaction_summary text IGNORECASE)
  | CitiParser =>
      caption_or_none "Purchases: $"
        (search Pat.citi_transaction_summary text IGNORECASE)
  end.

(** ** Result dictionaries *)

(** A Python [dict] with string keys, in insertion order; a value is a
    string or [None]. *)
Definition dict := list (string * option str).

Fixpoint dict_get (d : dict) (key : string) : option (option str) :=
  match d with
  | [] => None
  | (k, v) :: d' => if String.eqb k key then Some v else dict_get d' key
  end.

Definition dict_keys (d : dict) : list string := map fst d.

(** [BaseStatementParser.parse] on an instance of class [cls] holding
    [text]. *)
Definition parse (cls : parser_class) (text : str) : dict :=
  [ ("bank_name", Some (get_bank_name cls));
    ("card_variant", Some (extract_card_variant cls text));
    ("card_last_4", extract_card_last_4 cls text);
    ("billing_cycle", extract_billing_cycle cls text);
    ("payment_due_date", extract_due_date cls text);
    ("total_balance", extract_total_balance cls text);
    ("transaction_info", extract_transaction_summary cls text) ].

Definition bank_not_detected : dict :=
  [ ("error", Some (of_string "Bank not detected. Supported: HDFC, Chase, SBI, Amex, Citi")) ].

(** The router and the call of [parser.parse()], on an acquired text. *)
Definition route_and_parse (text_content : str) : dict :=
  match detect text_content with
  | Some cls => parse cls text_content
  | None => bank_not_detected
  end.

(** ** Text acquisition

    [pdfplumber] is an external collaborator.  Opening a document either
    raises an exception, of which the source only uses [str(e)], or gives
    the pages; evaluating [pdf.pages[i].extract_text() + "\n"] on a page
    either raises or gives that page's text followed by a newline. *)

(** The one-character string ["\n"]. *)
Definition newline : str := ["010"%char].

Inductive page :=
| PageText (t : str)
| PageRaises (message : str).

Inductive document :=
| OpenRaises (message : str)
| Opened (pages : list page).

(** The loop over [range(min(2, len(pdf.pages)))]: the accumulated text,
    or the message of the first exception raised. *)
Fixpoint read_pages (n : nat) (pages : list page) (text_content : str)
  : str + str :=
  match n, pages with
  | 0, _ => inl text_content
  | S _, [] => inl text_content
  | S n', PageText t :: rest => read_pages n' rest (text_content ++ t ++ of_string "
")
  | S _, PageRaises message :: _ => inr message
  end.

(** The [try] body up to the router: [inl text] on success, [inr message]
    when an exception is raised. *)
Definition acquire (doc : document) : str + str :=
  match doc with
  | OpenRaises message => inr message
  | Opened pages => read_pages (Nat.min 2 (List.length pages)) pages ""
  end.

Section Facade.

(** What [pdfplumber.open] does with each path. *)
Variable pdfplumber_open : str -> document.

Definition parse_credit_card_statement (pdf_path : str) : dict :=
  match acquire (pdfplumber_open pdf_path) with
  | inl text_content => route_and_parse text_content
  | inr message => [ ("error", Some (of_string "Error reading PDF: " ++ message)) ]
  end.

End Facade.

(** ** Vocabulary of the specification *)

(** The two shapes of a result. *)
Definition extraction_keys : list string :=
  ["bank_name"; "card_variant"; "card_last_4"; "billing_cycle";
   "payment_due_date"; "total_balance"; "transaction_info"].

Definition is_extraction_result (d : dict) : Prop :=
  dict_keys d = extraction_keys.

Definition is_error_result (d : dict) : Prop :=
  dict_keys d = ["error"].

(** Position of a class in the registration order. *)
Fixpoint index_of (cls : parser_class) (l : list parser_class) : nat :=
  match l with
  | [] => 0
  | x :: l' => if parser_class_eqb x cls then 0 else S (index_of cls l')
  end.

Definition rank (cls : parser_class) : nat := index_of cls issuers.

(** The literal substrings each signature looks for, and whether the
    text is upper-cased before the test. *)
Definition signature_literals (cls : parser_class) : list string :=
  match cls with
  | BaseStatementParser => []
  | HDFCParser => ["HDFC"; "H.D.F.C"]
  | ChaseParser => ["CHASE"; "JPMORGAN"]
  | SBIParser => ["SBI Card"; "State Bank of India"]
  | AmexParser => ["American Express"; "AMEX"]
  | CitiParser => ["Citi"; "Citibank"]
  end.

Definition folds_case (cls : parser_class) : bool :=
  match cls with
  | ChaseParser => true
  | _ => false
  end.

(** Two texts that differ at most in the case of their ASCII letters
    A-Z and a-z, position by position. *)
Definition same_letters (t t' : str) : Prop := lower t = lower t'.

(** A signature check is case-insensitive when the case of the letters
    of the text never changes its outcome. *)
Definition case_insensitive (cls : parser_class) : Prop :=
  forall t t', same_letters t t' -> signature cls t = signature cls t'.

(** More than half of the issuers' checks are case-insensitive. *)
Definition most_case_insensitive : Prop :=
  exists l : list parser_class,
    NoDup l /\ incl l issuers /\
    List.length issuers < 2 * List.length l /\
    forall cls, In cls l -> case_insensitive cls.

(** The five pattern-based fields. *)
Inductive field :=
| card_last_4
| billing_cycle
| payment_due_date
| total_balance
| transaction_info.

Definition field_rule (cls : parser_class) (f : field) (text : str)
  : option str :=
  match f with
  | card_last_4 => extract_card_last_4 cls text
  | billing_cycle => extract_billing_cycle cls text
  | payment_due_date => extract_due_date cls text
  | total_balance => extract_total_balance cls text
  | transaction_info => extract_transaction_summary cls text
  end.

(** The pattern and flags of the search each rule performs. *)
Definition field_pattern (cls : parser_class) (f : field)
  : option (regex * flags) :=
  match cls, f with
  | BaseStatementParser, _ => None
  | HDFCParser, card_last_4 => Some (Pat.hdfc_card_last_4, NOFLAG)
  | HDFCParser, billing_cycle => Some (Pat.hdfc_billing_cycle, IGNORECASE)
  | HDFCParser, payment_due_date => Some (Pat.hdfc_due_date, IGNORECASE)
  | HDFCParser, total_balance => Some (Pat.hdfc_total_balance, IGNORECASE)
  | HDFCParser, transaction_info => Some (Pat.hdfc_transaction_summary, IGNORECASE)
  | ChaseParser, card_last_4 => Some (Pat.chase_card_last_4, IGNORECASE)
  | ChaseParser, billing_cycle => Some (Pat.chase_billing_cycle, IGNORECASE)
  | ChaseParser, payment_due_date => Some (Pat.chase_due_date, IGNORECASE)
  | ChaseParser, total_balance => Some (Pat.chase_total_balance, IGNORECASE)
  | ChaseParser, transaction_info => Some (Pat.chase_transaction_summary, IGNORECASE)
  | SBIParser, card_last_4 => Some (Pat.sbi_card_last_4, NOFLAG)
  | SBIParser, billing_cycle => Some (Pat.sbi_billing_cycle, IGNORECASE)
  | SBIParser, payment_due_date => Some (Pat.sbi_due_date, IGNORECASE)
  | SBIParser, total_balance => Some (Pat.sbi_total_balance, IGNORECASE)
  | SBIParser, transaction_info => Some (Pat.sbi_transaction_summary, IGNORECASE)
  | AmexParser, card_last_4 => Some (Pat.amex_card_last_4, IGNORECASE)
  | AmexParser, billing_cycle => Some (Pat.amex_billing_cycle, IGNORECASE)
  | AmexParser, payment_due_date => Some (Pat.amex_due_date, IGNORECASE)
  | AmexParser, total_balance => Some (Pat.amex_total_balance, IGNORECASE)
  | AmexParser, transaction_info => Some (Pat.amex_transaction_summary, IGNORECASE)
  | CitiParser, card_last_4 => Some (Pat.citi_card_last_4, IGNORECASE)
  | CitiParser, billing_cycle => Some (Pat.citi_billing_cycle, IGNORECASE)
  | CitiParser, payment_due_date => Some (Pat.citi_due_date, IGNORECASE)
  | CitiParser, total_balance => Some (Pat.citi_total_balance, IGNORECASE)
  | CitiParser, transaction_info => Some (Pat.citi_transaction_summary, IGNORECASE)
  end.

(** The bound [hi] of a repetition allows [n] characters. *)
Definition within (hi : option nat) (n : nat) : Prop :=
  match hi with
  | Some h => n <= h
  | None => True
  end.

(** *** What it means for a pattern to match

    [lang ic r x]: the string [x] is in the language of [r] under the
    flags [ic], independently of any matching strategy. *)
Inductive lang (ic : flags) : regex -> str -> Prop :=
| L_eps : lang ic Eps []
| L_chars cs c : accepts ic cs c = true -> lang ic (Chars cs) [c]
| L_seq a b x y : lang ic a x -> lang ic b y -> lang ic (Seq a b) (x ++ y)
| L_alt_l a b x : lang ic a x -> lang ic (Alt a b) x
| L_alt_r a b x : lang ic b x -> lang ic (Alt a b) x
| L_opt_none a : lang ic (Opt a) []
| L_opt_some a x : lang ic a x -> lang ic (Opt a) x
| L_rep cs lo hi greedy x :
    forallb (accepts ic cs) x = true ->
    lo <= List.length x ->
    within hi (List.length x) ->
    lang ic (Rep cs lo hi greedy) x
| L_group a x : lang ic a x -> lang ic (Group a) x.

(** The pattern matches somewhere in the text. *)
Definition pattern_present (r : regex) (ic : flags) (text : str) : Prop :=
  exists pre x post, text = pre ++ x ++ post /\ lang ic r x.

Definition pattern_absent (r : regex) (ic : flags) (text : str) : Prop :=
  ~ pattern_present r ic text.

(** The first digit test of [\d]. *)
Definition starts_with_digit (s : str) : bool :=
  match s with
  | [] => false
  | c :: _ => cset_mem CDigit c
  end.

(** No match of the pattern starts at any of the first [n] offsets of
    [s]. *)
Fixpoint no_match_before (r : regex) (s : str) (ic : flags) (n : nat)
         {struct n} : bool :=
  match n with
  | 0 => true
  | S n' =>
      match match_here r s ic with
      | Some _ => false
      | None =>
          match s with
          | [] => true
          | _ :: s' => no_match_before r s' ic n'
          end
      end
  end.

(** Every way through the pattern goes through its capturing group. *)
Fixpoint sets_group (r : regex) : bool :=
  match r with
  | Group _ => true
  | Seq a b => sets_group a || sets_group b
  | Alt a b => sets_group a && sets_group b
  | _ => false
  end.

Definition is_some (A : Type) (o : option A) : bool :=
  match o with
  | Some _ => true
  | None => false
  end.

(** The dictionary key each field rule fills. *)
Definition field_key (f : field) : string :=
  match f with
  | card_last_4 => "card_last_4"
  | billing_cycle => "billing_cycle"
  | payment_due_date => "payment_due_date"
  | total_balance => "total_balance"
  | transaction_info => "transaction_info"
  end.

(** Texts of the Chase scenario: the fixture itself, one with an earlier
    "New Balance" amount, one with a digit right after the closing date. *)
Definition scenario_text : str :=
  "JPMORGAN CHASE New Balance $500.00 Opening/Closing Date 01/01/22 - 01/31/22 ".
Definition two_balances_text : str :=
  "JPMORGAN New Balance $1.00 New Balance $500.00 Opening/Closing Date 01/01/22 - 01/31/22".
Definition trailing_digit_text : str :=
  "JPMORGAN New Balance $500.00 Opening/Closing Date 01/01/22 - 01/31/229".

(** ** Further vocabulary *)

(** The prefix a card-variant rule puts before the keyword it found. *)
Definition variant_prefix (cls : parser_class) : str :=
  match cls with
  | BaseStatementParser => ""
  | HDFCParser => "HDFC "
  | ChaseParser => "Chase "
  | SBIParser => "SBI "
  | AmexParser => "Amex "
  | CitiParser => "Citi "
  end.

(** The caption a field rule puts before the captured text. *)
Definition field_caption (cls : parser_class) (f : field) : str :=
  match cls, f with
  | HDFCParser, billing_cycle => "Ends on "
  | SBIParser, billing_cycle => "Statement generated on "
  | AmexParser, billing_cycle => "Closing Date: "
  | CitiParser, billing_cycle => "Statement Date: "
  | HDFCParser, transaction_info => "Total Debits: "
  | ChaseParser, transaction_info => "Total Purchases: $"
  | SBIParser, transaction_info => "Total Debits: "
  | AmexParser, transaction_info => "New Charges: $"
  | CitiParser, transaction_info => "Purchases: $"
  | _, _ => ""
  end.

(** The bodies of the capturing groups of a pattern. *)
Fixpoint group_bodies (r : regex) : list regex :=
  match r with
  | Group a => a :: group_bodies a
  | Seq a b | Alt a b => group_bodies a ++ group_bodies b
  | Opt a => group_bodies a
  | _ => []
  end.

Definition is_digit (c : ascii) : bool := cset_mem CDigit c.

(** A character of an amount: a digit or a comma. *)
Definition is_amount_char (c : ascii) : bool :=
  cset_mem (CUnion CDigit (CChar ",")) c.

(** Two optional strings that differ at most in the case of letters. *)
Definition same_letters_opt (g g' : option str) : Prop :=
  match g, g' with
  | Some x, Some x' => same_letters x x'
  | None, None => True
  | _, _ => False
  end.

(** Two optional results, both absent or both present and related. *)
Definition orel (A B : Type) (Q : A -> B -> Prop)
           (o : option A) (o' : option B) : Prop :=
  match o, o' with
  | Some a, Some b => Q a b
  | None, None => True
  | _, _ => False
  end.

(** A character that is not a letter. *)
Definition uncased (c : ascii) : bool := negb (is_lower c) && negb (is_upper c).

(** Two match objects at the same offset whose captures differ at most
    in the case of letters. *)
Definition same_match (mo mo' : match_obj) : Prop :=
  m_start mo = m_start mo' /\ same_letters_opt (group1 mo) (group1 mo').

(** A character of 7-bit ASCII, and a text made of such characters. *)
Definition is_ascii7 (c : ascii) : bool := code c <? 128.

Definition ascii_text (t : str) : Prop := forallb is_ascii7 t = true.

(** The label part of the "New Balance" pattern: [New\s+Balance\s]. *)
Definition new_balance_label : regex :=
  cat [lit "New"; ws1; lit "Balance"; ws].

(** ** The script's report

    The strings the [__main__] block prints after the "PARSED DATA"
    header for a result, one per call of [print]: [str(value)] is
    ["None"] for a field that was not found.  A printed string may itself
    contain a newline. *)
Definition dict_has_key (d : dict) (key : string) : bool :=
  match dict_get d key with
  | Some _ => true
  | None => false
  end.

Definition report (result : dict) : list str :=
  if dict_has_key result "error" then
    match dict_get result "error" with
    | Some v => [of_string "FAILED: " ++ fmt v]
    | None => []
    end
  else
    map (fun kv => of_string (fst kv) ++ of_string ": " ++ fmt (snd kv)) result.

(** * Properties *)

(** ** Substring tests *)

Lemma starts_with_iff (p s : str) :
  starts_with p s = true <-> exists b, s = p ++ b.
Proof.
  revert s; induction p as [|a p IH]; intros s; simpl.
  - split; [intros _; now exists s | reflexivity].
  - destruct s as [|c s]; simpl.
    + split; [discriminate | intros [b Hb]; discriminate].
    + rewrite andb_true_iff, Ascii.eqb_eq, IH. split.
      * intros [-> [b ->]]. now exists b.
      * intros [b Hb]. injection Hb as -> ->. split; [reflexivity | now exists b].
Qed.

Lemma contains_iff (p s : str) : contains p s = true <-> occurs_in p s.
Proof.
  unfold occurs_in. induction s as [|c s IH]; simpl.
  - rewrite orb_false_r, starts_with_iff. split.
    + intros [b Hb]. now exists [], b.
    + intros [a [b Hab]]. destruct a; [now exists b | discriminate].
  - rewrite orb_true_iff, starts_with_iff, IH. split.
    + intros [[b Hb] | [a [b Hab]]].
      * now exists [], b.
      * exists (c :: a), b. simpl. now rewrite Hab.
    + intros [a [b Hab]]. destruct a as [|c' a]; simpl in Hab.
      * left. now exists b.
      * right. injection Hab as _ ->. now exists a, b.
Qed.

Lemma contains_false_iff (p s : str) : contains p s = false <-> ~ occurs_in p s.
Proof.
  rewrite <- contains_iff. destruct (contains p s); split; intros H;
    try reflexivity; try discriminate.
  now elim H.
Qed.

(** ** Case folding *)

Lemma lower_upper_char (c : ascii) : lower_char (upper_char c) = lower_char c.
Proof. destruct c as [[] [] [] [] [] [] [] []]; reflexivity. Qed.

Lemma upper_lower_char (c : ascii) : upper_char (lower_char c) = upper_char c.
Proof. destruct c as [[] [] [] [] [] [] [] []]; reflexivity. Qed.

Lemma lower_lower_char (c : ascii) : lower_char (lower_char c) = lower_char c.
Proof. destruct c as [[] [] [] [] [] [] [] []]; reflexivity. Qed.

Lemma upper_of_same_letters (t t' : str) :
  same_letters t t' -> upper t = upper t'.
Proof.
  unfold same_letters, lower, upper. revert t'.
  induction t as [|c t IH]; intros [|c' t'] H; simpl in *; try discriminate.
  - reflexivity.
  - injection H as Hc Ht. f_equal; [| now apply IH].
    now rewrite <- (upper_lower_char c), Hc, upper_lower_char.
Qed.

Lemma same_letters_upper (t : str) : same_letters t (upper t).
Proof.
  unfold same_letters, lower, upper. rewrite map_map.
  apply map_ext. intros c. now rewrite lower_upper_char.
Qed.

Lemma same_letters_lower (t : str) : same_letters t (lower t).
Proof.
  unfold same_letters, lower. rewrite map_map.
  apply map_ext. intros c. now rewrite lower_lower_char.
Qed.

(** ** The router *)

Lemma in_issuers (cls : parser_class) :
  In cls issuers <-> cls <> BaseStatementParser.
Proof.
  unfold issuers; simpl. split.
  - intros H Hb; subst. intuition discriminate.
  - intros H. destruct cls; try (now elim H); auto 10.
Qed.

(** The [if]/[elif] chain is a first-match scan of the registration
    order. *)
Lemma detect_find (t : str) :
  detect t = find (fun cls => signature cls t) issuers.
Proof.
  unfold detect, issuers; simpl.
  destruct (contains "HDFC" t || contains "H.D.F.C" t); [reflexivity|].
  destruct (contains "CHASE" (upper t) || contains "JPMORGAN" (upper t));
    [reflexivity|].
  destruct (contains "SBI Card" t || contains "State Bank of India" t);
    [reflexivity|].
  destruct (contains "American Express" t || contains "AMEX" t); [reflexivity|].
  destruct (contains "Citi" t || contains "Citibank" t); reflexivity.
Qed.

Lemma detect_some (t : str) (w : parser_class) :
  detect t = Some w <->
  In w issuers /\ signature w t = true /\
  forall h, rank h < rank w -> signature h t = false.
Proof.
  unfold detect. split.
  - destruct (signature HDFCParser t) eqn:E1.
    { intros [= <-]. repeat split; [simpl; auto | exact E1 |].
      intros h Hh. destruct h; vm_compute in Hh; lia. }
    destruct (signature ChaseParser t) eqn:E2.
    { intros [= <-]. repeat split; [simpl; auto | exact E2 |].
      intros h Hh. destruct h; vm_compute in Hh; try lia; assumption. }
    destruct (signature SBIParser t) eqn:E3.
    { intros [= <-]. repeat split; [simpl; auto | exact E3 |].
      intros h Hh. destruct h; vm_compute in Hh; try lia; assumption. }
    destruct (signature AmexParser t) eqn:E4.
    { intros [= <-]. repeat split; [simpl; auto 6 | exact E4 |].
      intros h Hh. destruct h; vm_compute in Hh; try lia; assumption. }
    destruct (signature CitiParser t) eqn:E5; [|discriminate].
    intros [= <-]. repeat split; [simpl; auto 6 | exact E5 |].
    intros h Hh. destruct h; vm_compute in Hh; try lia; assumption.
  - intros (Hin & Hs & Hbefore).
    assert (Hr : forall h, rank h < rank w -> signature h t = false) by exact Hbefore.
    destruct w.
    + now apply in_issuers in Hin.
    + now rewrite Hs.
    + rewrite (Hr HDFCParser) by (vm_compute; lia). now rewrite Hs.
    + rewrite (Hr HDFCParser), (Hr ChaseParser) by (vm_compute; lia).
      now rewrite Hs.
    + rewrite (Hr HDFCParser), (Hr ChaseParser), (Hr SBIParser)
        by (vm_compute; lia).
      now rewrite Hs.
    + rewrite (Hr HDFCParser), (Hr ChaseParser), (Hr SBIParser), (Hr AmexParser)
        by (vm_compute; lia).
      now rewrite Hs.
Qed.

Lemma detect_none (t : str) :
  detect t = None <-> forall cls, In cls issuers -> signature cls t = false.
Proof.
  unfold detect. split.
  - intros H cls Hin.
    destruct (signature HDFCParser t) eqn:E1; [discriminate|].
    destruct (signature ChaseParser t) eqn:E2; [discriminate|].
    destruct (signature SBIParser t) eqn:E3; [discriminate|].
    destruct (signature AmexParser t) eqn:E4; [discriminate|].
    destruct (signature CitiParser t) eqn:E5; [discriminate|].
    destruct cls; try assumption. now apply in_issuers in Hin.
  - intros H.
    rewrite (H HDFCParser), (H ChaseParser), (H SBIParser), (H AmexParser),
      (H CitiParser) by (simpl; auto 6).
    reflexivity.
Qed.

Lemma rank_inj (a b : parser_class) : rank a = rank b -> a = b.
Proof. destruct a, b; vm_compute; intros H; try reflexivity; discriminate. Qed.

(** ** The matcher against the language of a pattern *)

Lemma within_pred hi n :
  reached hi = false -> within (option_map pred hi) n -> within hi (S n).
Proof. destruct hi as [[|h]|]; simpl; try discriminate; intros; lia. Qed.

Lemma within_pred_inv hi n :
  within hi (S n) -> reached hi = false /\ within (option_map pred hi) n.
Proof. destruct hi as [[|h]|]; simpl; intros; split; try reflexivity; lia. Qed.

Lemma within_reached hi n : reached hi = true -> within hi n -> n = 0.
Proof. destruct hi as [[|h]|]; simpl; try discriminate; intros; lia. Qed.

Section RepetitionFacts.
Variable A : Type.
Variable ok : ascii -> bool.

Lemma stop_some lo (k : str -> option A) s v :
  match lo with 0 => k s | S _ => None end = Some v -> lo = 0 /\ k s = Some v.
Proof. destruct lo; [auto | discriminate]. Qed.

Lemma rep_greedy_sound s : forall lo hi (k : str -> option A) v,
  rep_greedy ok lo hi s k = Some v ->
  exists x rest, s = x ++ rest /\ forallb ok x = true /\
    lo <= List.length x /\ within hi (List.length x) /\ k rest = Some v.
Proof.
  induction s as [|c s IH]; intros lo hi k v; simpl.
  - intros H.
    assert (Hs : match lo with 0 => k [] | S _ => None end = Some v)
      by (destruct (reached hi); exact H).
    apply stop_some in Hs as [-> Hk].
    exists [], []. repeat split; auto. destruct hi; simpl; auto; lia.
  - destruct (reached hi) eqn:Hr.
    + intros Hs. apply stop_some in Hs as [-> Hk].
      exists [], (c :: s). repeat split; auto. destruct hi; simpl; auto; lia.
    + destruct (ok c) eqn:Hc.
      * destruct (rep_greedy ok (pred lo) (option_map pred hi) s k) as [r|] eqn:E.
        -- intros [= ->]. apply IH in E as (x & rest & -> & Hx & Hlo & Hhi & Hk).
           exists (c :: x), rest. simpl. rewrite Hc, Hx.
           repeat split; auto; [lia | now apply within_pred].
        -- intros Hs. apply stop_some in Hs as [-> Hk].
           exists [], (c :: s). repeat split; auto. destruct hi; simpl; auto; lia.
      * intros Hs. apply stop_some in Hs as [-> Hk].
        exists [], (c :: s). repeat split; auto. destruct hi; simpl; auto; lia.
Qed.

Lemma rep_lazy_sound s : forall lo hi (k : str -> option A) v,
  rep_lazy ok lo hi s k = Some v ->
  exists x rest, s = x ++ rest /\ forallb ok x = true /\
    lo <= List.length x /\ within hi (List.length x) /\ k rest = Some v.
Proof.
  induction s as [|c s IH]; intros lo hi k v; simpl.
  - destruct lo.
    + destruct (k []) eqn:Hk.
      * intros [= ->]. exists [], []. repeat split; auto.
        destruct hi; simpl; auto; lia.
      * destruct (reached hi); discriminate.
    + destruct (reached hi); discriminate.
  - assert (Hmore : (if reached hi then None
             else if ok c then rep_lazy ok (pred lo) (option_map pred hi) s k
                  else None) = Some v ->
            exists x rest, c :: s = x ++ rest /\ forallb ok x = true /\
              lo <= List.length x /\ within hi (List.length x) /\ k rest = Some v).
    { destruct (reached hi) eqn:Hr; [discriminate|].
      destruct (ok c) eqn:Hc; [|discriminate].
      intros E. apply IH in E as (x & rest & -> & Hx & Hlo & Hhi & Hk).
      exists (c :: x), rest. simpl. rewrite Hc, Hx.
      repeat split; auto; [lia | now apply within_pred]. }
    destruct lo.
    + destruct (k (c :: s)) eqn:Hk.
      * intros [= ->]. exists [], (c :: s). repeat split; auto.
        destruct hi; simpl; auto; lia.
      * exact Hmore.
    + exact Hmore.
Qed.

Lemma rep_greedy_complete x : forall lo hi rest (k : str -> option A),
  forallb ok x = true -> lo <= List.length x -> within hi (List.length x) ->
  k rest <> None ->
  rep_greedy ok lo hi (x ++ rest) k <> None.
Proof.
  induction x as [|c x IH]; intros lo hi rest k Hx Hlo Hhi Hk; simpl in *.
  - assert (lo = 0) by lia; subst lo.
    destruct rest as [|c s]; simpl.
    + now destruct (reached hi).
    + destruct (reached hi); [assumption|].
      destruct (ok c); [|assumption].
      now destruct (rep_greedy ok 0 (option_map pred hi) s k).
  - apply andb_true_iff in Hx as [Hc Hx].
    apply within_pred_inv in Hhi as [Hr Hhi]. rewrite Hr, Hc.
    specialize (IH (pred lo) (option_map pred hi) rest k Hx ltac:(lia) Hhi Hk).
    destruct (rep_greedy ok (pred lo) (option_map pred hi) (x ++ rest) k);
      [discriminate | contradiction].
Qed.

Lemma rep_lazy_complete x : forall lo hi rest (k : str -> option A),
  forallb ok x = true -> lo <= List.length x -> within hi (List.length x) ->
  k rest <> None ->
  rep_lazy ok lo hi (x ++ rest) k <> None.
Proof.
  induction x as [|c x IH]; intros lo hi rest k Hx Hlo Hhi Hk; simpl in *.
  - assert (lo = 0) by lia; subst lo.
    destruct rest as [|c s]; simpl; destruct (k _); try discriminate;
      now elim Hk.
  - apply andb_true_iff in Hx as [Hc Hx].
    apply within_pred_inv in Hhi as [Hr Hhi]. rewrite Hr, Hc.
    specialize (IH (pred lo) (option_map pred hi) rest k Hx ltac:(lia) Hhi Hk).
    destruct lo; [destruct (k (c :: x ++ rest)); [discriminate|] |]; exact IH.
Qed.

End RepetitionFacts.

Section MatcherFacts.
Variable A : Type.
Variable ic : flags.

(** Every success of the matcher consumes a string of the language. *)
Lemma rmatch_sound r : forall s g (k : str -> option str -> option A) v,
  rmatch ic r s g k = Some v ->
  exists x rest g', s = x ++ rest /\ lang ic r x /\ k rest g' = Some v.
Proof.
  induction r as [| cs | a IHa b IHb | a IHa b IHb | a IHa
                 | cs lo hi greedy | a IHa]; intros s g k v; simpl.
  - intros H. exists [], s, g. repeat split; [constructor | exact H].
  - destruct s as [|c s]; [discriminate|].
    destruct (accepts ic cs c) eqn:Hc; [|discriminate].
    intros H. exists [c], s, g. repeat split; [now constructor | exact H].
  - intros H. apply IHa in H as (x1 & rest1 & g1 & -> & Hx1 & H).
    apply IHb in H as (x2 & rest2 & g2 & -> & Hx2 & H).
    exists (x1 ++ x2), rest2, g2. rewrite <- app_assoc.
    repeat split; [now constructor | exact H].
  - destruct (rmatch ic a s g k) as [w|] eqn:E.
    + intros [= ->]. apply IHa in E as (x & rest & g' & -> & Hx & H).
      exists x, rest, g'. repeat split; [now apply L_alt_l | exact H].
    + intros H. apply IHb in H as (x & rest & g' & -> & Hx & H).
      exists x, rest, g'. repeat split; [now apply L_alt_r | exact H].
  - destruct (rmatch ic a s g k) as [w|] eqn:E.
    + intros [= ->]. apply IHa in E as (x & rest & g' & -> & Hx & H).
      exists x, rest, g'. repeat split; [now apply L_opt_some | exact H].
    + intros H. exists [], s, g. repeat split; [apply L_opt_none | exact H].
  - intros H.
    assert (Hx : exists x rest, s = x ++ rest /\
              forallb (accepts ic cs) x = true /\ lo <= List.length x /\
              within hi (List.length x) /\ k rest g = Some v).
    { destruct greedy;
        [apply rep_greedy_sound in H | apply rep_lazy_sound in H]; exact H. }
    destruct Hx as (x & rest & -> & Hok & Hlo & Hhi & Hk).
    exists x, rest, g. repeat split; [now constructor | exact Hk].
  - intros H. apply IHa in H as (x & rest & g' & -> & Hx & H).
    eexists x, rest, _. repeat split; [now constructor | exact H].
Qed.

(** Backtracking is exhaustive: a string of the language at the head of
    the text is found whenever the rest of the match accepts what
    follows it. *)
Lemma rmatch_complete r x :
  lang ic r x ->
  forall rest g (k : str -> option str -> option A),
    (forall g', k rest g' <> None) ->
    rmatch ic r (x ++ rest) g k <> None.
Proof.
  induction 1 as [| cs c Hc | a b x y _ IHa _ IHb | a b x _ IHa | a b x _ IHb
                 | a | a x _ IHa | cs lo hi greedy x Hok Hlo Hhi | a x _ IHa];
    intros rest g k Hk; simpl.
  - apply Hk.
  - rewrite Hc. apply Hk.
  - rewrite <- app_assoc. apply IHa. intros g'. now apply IHb.
  - specialize (IHa rest g k Hk).
    destruct (rmatch ic a (x ++ rest) g k); [discriminate | contradiction].
  - destruct (rmatch ic a (x ++ rest) g k); [discriminate | now apply IHb].
  - destruct (rmatch ic a rest g k); [discriminate | apply Hk].
  - specialize (IHa rest g k Hk).
    destruct (rmatch ic a (x ++ rest) g k); [discriminate | contradiction].
  - destruct greedy;
      [apply rep_greedy_complete | apply rep_lazy_complete]; auto.
  - apply IHa. intros _. apply Hk.
Qed.

End MatcherFacts.

Lemma match_here_sound r ic s g :
  match_here r s ic = Some g -> exists x rest, s = x ++ rest /\ lang ic r x.
Proof.
  unfold match_here. intros H.
  apply rmatch_sound in H as (x & rest & _ & -> & Hx & _). now exists x, rest.
Qed.

Lemma match_here_complete r ic x rest :
  lang ic r x -> match_here r (x ++ rest) ic <> None.
Proof.
  intros Hx. unfold match_here. apply rmatch_complete; [exact Hx | discriminate].
Qed.

Lemma search_from_sound r ic s : forall pos mo,
  search_from r s ic pos = Some mo -> pattern_present r ic s.
Proof.
  induction s as [|c s IH]; intros pos mo; simpl.
  - destruct (match_here r [] ic) eqn:E; [|discriminate].
    intros _. apply match_here_sound in E as (x & rest & E & Hx).
    exists [], x, rest. now split.
  - destruct (match_here r (c :: s) ic) eqn:E.
    + intros _. apply match_here_sound in E as (x & rest & E & Hx).
      exists [], x, rest. now split.
    + intros H. apply IH in H as (pre & x & post & -> & Hx).
      exists (c :: pre), x, post. now split.
Qed.

Lemma search_from_complete r ic pre x post : forall pos,
  lang ic r x -> search_from r (pre ++ x ++ post) ic pos <> None.
Proof.
  induction pre as [|c pre IH]; intros pos Hx.
  - simpl app. pose proof (match_here_complete post Hx) as Hm.
    destruct (x ++ post); simpl;
      destruct (match_here r _ ic); try discriminate; now elim Hm.
  - simpl. destruct (match_here r (c :: pre ++ x ++ post) ic);
      [discriminate | now apply IH].
Qed.

(** [re.search] finds nothing exactly when the pattern matches nowhere. *)
Lemma search_none_iff r ic text :
  search r text ic = None <-> pattern_absent r ic text.
Proof.
  unfold search, pattern_absent. split.
  - intros H (pre & x & post & -> & Hx).
    now apply (search_from_complete pre post 0 Hx).
  - intros H. destruct (search_from r text ic 0) eqn:E; [|reflexivity].
    elim H. now apply search_from_sound in E.
Qed.

(** ** Case-insensitive searches *)

Lemma accepts_same_letter cs c c' :
  lower_char c = lower_char c' ->
  accepts IGNORECASE cs c = accepts IGNORECASE cs c'.
Proof.
  intros H. unfold accepts, IGNORECASE.
  now rewrite <- (upper_lower_char c), <- (upper_lower_char c'), H.
Qed.

Lemma same_letters_length t t' :
  same_letters t t' -> List.length t = List.length t'.
Proof.
  unfold same_letters, lower. intros H.
  now rewrite <- (length_map lower_char t), H, length_map.
Qed.

Lemma same_letters_sym t t' : same_letters t t' -> same_letters t' t.
Proof. unfold same_letters; auto. Qed.

Lemma same_letters_app_inv a : forall b t,
  same_letters (a ++ b) t ->
  exists a' b', t = a' ++ b' /\ same_letters a a' /\ same_letters b b'.
Proof.
  unfold same_letters, lower.
  induction a as [|c a IH]; intros b t H; simpl in *.
  - now exists [], t.
  - destruct t as [|c' t]; [discriminate|]. simpl in H. injection H as Hc H.
    apply IH in H as (a' & b' & -> & Ha & Hb).
    exists (c' :: a'), b'. simpl. now rewrite Hc, Ha.
Qed.

Lemma forallb_accepts_same_letters cs x : forall x',
  same_letters x x' ->
  forallb (accepts IGNORECASE cs) x = forallb (accepts IGNORECASE cs) x'.
Proof.
  unfold same_letters, lower.
  induction x as [|c x IH]; intros [|c' x'] H; simpl in H; try discriminate.
  - reflexivity.
  - injection H as Hc H. cbn [forallb].
    f_equal; [now apply accepts_same_letter | now apply IH].
Qed.

Lemma lang_same_letters r x :
  lang IGNORECASE r x ->
  forall x', same_letters x x' -> lang IGNORECASE r x'.
Proof.
  induction 1 as [| cs c Hc | a b x y _ IHa _ IHb | a b x _ IHa | a b x _ IHb
                 | a | a x _ IHa | cs lo hi greedy x Hok Hlo Hhi | a x _ IHa];
    intros x' Hx'.
  - destruct x'; [constructor | discriminate].
  - destruct x' as [|c' [|? ?]]; try discriminate.
    unfold same_letters, lower in Hx'. simpl in Hx'. injection Hx' as Hc'.
    constructor. now rewrite <- (accepts_same_letter cs c c' Hc').
  - apply same_letters_app_inv in Hx' as (a' & b' & -> & Ha & Hb).
    constructor; auto.
  - apply L_alt_l; auto.
  - apply L_alt_r; auto.
  - destruct x'; [constructor | discriminate].
  - apply L_opt_some; auto.
  - constructor.
    + now rewrite <- (forallb_accepts_same_letters cs Hx').
    + now rewrite <- (same_letters_length Hx').
    + now rewrite <- (same_letters_length Hx').
  - constructor; auto.
Qed.

Lemma pattern_present_same_letters r t t' :
  same_letters t t' ->
  pattern_present r IGNORECASE t -> pattern_present r IGNORECASE t'.
Proof.
  intros Ht (pre & x & post & -> & Hx).
  apply same_letters_app_inv in Ht as (pre' & rest' & -> & _ & Hrest).
  apply same_letters_app_inv in Hrest as (x' & post' & -> & Hx' & _).
  exists pre', x', post'. split; [reflexivity | now apply (lang_same_letters Hx)].
Qed.

(** On the ASCII alphabet of the model, a search under [re.IGNORECASE]
    succeeds or fails regardless of the case of the letters A-Z and a-z
    of the text. *)
Lemma search_ignorecase r t t' :
  same_letters t t' ->
  (search r t IGNORECASE = None <-> search r t' IGNORECASE = None).
Proof.
  intros Ht. rewrite !search_none_iff. unfold pattern_absent. split; intros H Hp;
    apply H; revert Hp; apply pattern_present_same_letters;
    [now apply same_letters_sym | exact Ht].
Qed.

(** ** Routing *)

Lemma signature_issuer cls t : signature cls t = true -> In cls issuers.
Proof. intros H. apply in_issuers. intros ->. discriminate. Qed.

Lemma route_and_parse_detected t cls :
  detect t = Some cls -> route_and_parse t = parse cls t.
Proof. unfold route_and_parse. now intros ->. Qed.

(** C1. When the text carries the signatures of two issuers [a] and [b],
    [a] registered before [b], the router selects an issuer [w] that is
    not [b]: [w] is the earliest-registered issuer whose signature occurs
    in the text, so it is [a] itself unless a still earlier signature is
    present.  The router is a function of the text alone, hence repeated
    calls agree. *)
Theorem router_tie_break (t : str) (a b : parser_class) :
  signature a t = true ->
  signature b t = true ->
  rank a < rank b ->
  exists w,
    detect t = Some w /\ w <> b /\ rank w <= rank a /\
    (forall h, signature h t = true -> rank w <= rank h) /\
    ((forall h, rank h < rank a -> signature h t = false) -> w = a) /\
    dict_get (route_and_parse t) "bank_name" = Some (Some (get_bank_name w)).
Proof.
  intros Ha Hb Hab.
  destruct (detect t) as [w|] eqn:E.
  - pose proof E as E'. apply detect_some in E' as (Hin & Hw & Hmin).
    assert (Hle : forall h, signature h t = true -> rank w <= rank h).
    { intros h Hh. destruct (Nat.le_gt_cases (rank w) (rank h)) as [|Hlt];
        [assumption|]. apply Hmin in Hlt. congruence. }
    exists w. repeat split.
    + intros ->. specialize (Hle a Ha). lia.
    + now apply Hle.
    + exact Hle.
    + intros Hnone. apply rank_inj.
      destruct (Nat.eq_dec (rank w) (rank a)) as [|Hne]; [assumption|].
      assert (Hlt : rank w < rank a) by (specialize (Hle a Ha); lia).
      apply Hnone in Hlt. congruence.
    + now rewrite (@route_and_parse_detected t _ E).
  - apply detect_none with (cls := a) in E; [congruence|].
    now apply signature_issuer with t.
Qed.

Lemma router_tie_break_witness :
  exists w,
    detect "HDFC statement, paid via CHASE" = Some w /\ w <> ChaseParser /\
    rank w <= rank HDFCParser /\
    (forall h, signature h "HDFC statement, paid via CHASE" = true ->
               rank w <= rank h) /\
    ((forall h, rank h < rank HDFCParser ->
                signature h "HDFC statement, paid via CHASE" = false) ->
     w = HDFCParser) /\
    dict_get (route_and_parse "HDFC statement, paid via CHASE") "bank_name"
    = Some (Some (get_bank_name w)).
Proof.
  apply (@router_tie_break "HDFC statement, paid via CHASE" HDFCParser ChaseParser).
  - reflexivity.
  - reflexivity.
  - vm_compute. lia.
Defined.

(** C2. When the text carries the signature of one issuer and of no
    other, the router selects that issuer and the record's [bank_name] is
    that issuer's constant name. *)
Theorem router_selects_sole_issuer (cls : parser_class) (t : str) :
  In cls issuers ->
  signature cls t = true ->
  (forall other, In other issuers -> other <> cls -> signature other t = false) ->
  detect t = Some cls /\
  route_and_parse t = parse cls t /\
  dict_get (route_and_parse t) "bank_name" = Some (Some (get_bank_name cls)).
Proof.
  intros Hin Hs Hothers.
  assert (E : detect t = Some cls).
  { apply detect_some. repeat split; [assumption | assumption |].
    intros h Hh. destruct (parser_class_eqb h cls) eqn:Heq.
    - destruct h, cls; try discriminate; lia.
    - apply Hothers.
      + apply in_issuers. intros ->. destruct cls; vm_compute in Hh; lia.
      + intros ->. destruct cls; discriminate. }
  split; [exact E|]. rewrite (@route_and_parse_detected t _ E). now split.
Qed.

Lemma router_selects_sole_issuer_witness :
  detect "SBI Card statement" = Some SBIParser /\
  route_and_parse "SBI Card statement" = parse SBIParser "SBI Card statement" /\
  dict_get (route_and_parse "SBI Card statement") "bank_name"
  = Some (Some (get_bank_name SBIParser)).
Proof.
  apply (@router_selects_sole_issuer SBIParser "SBI Card statement").
  - simpl; auto.
  - reflexivity.
  - intros other _ Hne. destruct other; try reflexivity. now elim Hne.
Defined.

(** Each of the five issuers has a text that carries its signature and
    no other. *)
Lemma sole_signature_texts :
  forall cls, In cls issuers ->
  exists t, signature cls t = true /\
    forall other, In other issuers -> other <> cls -> signature other t = false.
Proof.
  intros cls Hin. apply in_issuers in Hin.
  destruct cls; [now elim Hin | | | | |].
  - exists (of_string "HDFC"). split; [reflexivity|].
    intros [] _ Hne; try reflexivity; now elim Hne.
  - exists (of_string "jpmorgan"). split; [reflexivity|].
    intros [] _ Hne; try reflexivity; now elim Hne.
  - exists (of_string "State Bank of India"). split; [reflexivity|].
    intros [] _ Hne; try reflexivity; now elim Hne.
  - exists (of_string "AMEX"). split; [reflexivity|].
    intros [] _ Hne; try reflexivity; now elim Hne.
  - exists (of_string "Citibank"). split; [reflexivity|].
    intros [] _ Hne; try reflexivity; now elim Hne.
Qed.

(** C3. A text that carries none of the five signatures makes the router
    select no parser class, and the call returns exactly the "Bank not
    detected" error dictionary. *)
Theorem no_signature_short_circuits (t : str) :
  (forall cls, In cls issuers -> signature cls t = false) ->
  detect t = None /\
  route_and_parse t =
    [("error",
      Some (of_string "Bank not detected. Supported: HDFC, Chase, SBI, Amex, Citi"))] /\
  forall (pdfplumber_open : str -> document) (pdf_path : str),
    acquire (pdfplumber_open pdf_path) = inl t ->
    parse_credit_card_statement pdfplumber_open pdf_path =
      [("error",
        Some (of_string "Bank not detected. Supported: HDFC, Chase, SBI, Amex, Citi"))].
Proof.
  intros H. apply detect_none in H.
  assert (R : route_and_parse t = bank_not_detected)
    by (unfold route_and_parse; now rewrite H).
  repeat split; [exact H | exact R |].
  intros op path Hacq. unfold parse_credit_card_statement. now rewrite Hacq.
Qed.

Lemma no_signature_short_circuits_witness :
  detect "Acme Savings statement" = None /\
  route_and_parse "Acme Savings statement" =
    [("error",
      Some (of_string "Bank not detected. Supported: HDFC, Chase, SBI, Amex, Citi"))] /\
  forall (pdfplumber_open : str -> document) (pdf_path : str),
    acquire (pdfplumber_open pdf_path) = inl (of_string "Acme Savings statement") ->
    parse_credit_card_statement pdfplumber_open pdf_path =
      [("error",
        Some (of_string "Bank not detected. Supported: HDFC, Chase, SBI, Amex, Citi"))].
Proof.
  apply (@no_signature_short_circuits "Acme Savings statement").
  intros cls _. destruct cls; reflexivity.
Defined.

(** ** The facade *)

(** The ways acquisition fails: opening raises, or one of the first two
    pages raises. *)
Lemma acquire_fails_iff (doc : document) (message : str) :
  acquire doc = inr message <->
  doc = OpenRaises message \/
  (exists rest, doc = Opened (PageRaises message :: rest)) \/
  (exists t rest, doc = Opened (PageText t :: PageRaises message :: rest)).
Proof.
  split.
  - destruct doc as [m | pages]; simpl.
    + intros [= ->]. now left.
    + destruct pages as [|[t|m] [|[t'|m'] rest]]; simpl; try discriminate;
        intros [= ->]; eauto 7.
  - intros [-> | [[rest ->] | [t [rest ->]]]]; reflexivity.
Qed.

Lemma parse_is_extraction_result cls t : is_extraction_result (parse cls t).
Proof. reflexivity. Qed.

(** C4. The call always returns a dictionary, of exactly one of the two
    shapes.  An exception raised while the text is acquired, whether by
    opening the document, by the first page, or by the second page after
    the first was read, becomes the error dictionary carrying its
    message; and that dictionary is returned in no other case. *)
Theorem parse_returns_one_shape
        (pdfplumber_open : str -> document) (pdf_path : str) :
  let r := parse_credit_card_statement pdfplumber_open pdf_path in
  ((is_extraction_result r /\ ~ is_error_result r) \/
   (is_error_result r /\ ~ is_extraction_result r)) /\
  (forall message,
     pdfplumber_open pdf_path = OpenRaises message ->
     r = [("error", Some (of_string "Error reading PDF: " ++ message))]) /\
  (forall message rest,
     pdfplumber_open pdf_path = Opened (PageRaises message :: rest) ->
     r = [("error", Some (of_string "Error reading PDF: " ++ message))]) /\
  (forall t message rest,
     pdfplumber_open pdf_path
     = Opened (PageText t :: PageRaises message :: rest) ->
     r = [("error", Some (of_string "Error reading PDF: " ++ message))]) /\
  (forall message,
     r = [("error", Some (of_string "Error reading PDF: " ++ message))] ->
     pdfplumber_open pdf_path = OpenRaises message \/
     (exists rest,
        pdfplumber_open pdf_path = Opened (PageRaises message :: rest)) \/
     (exists t rest,
        pdfplumber_open pdf_path
        = Opened (PageText t :: PageRaises message :: rest))).
Proof.
  unfold parse_credit_card_statement. cbn zeta.
  split; [|split; [|split; [|split]]].
  - destruct (acquire (pdfplumber_open pdf_path)) as [t | m].
    + unfold route_and_parse. destruct (detect t) as [cls|].
      * left. split; [reflexivity | discriminate].
      * right. split; [reflexivity | discriminate].
    + right. split; [reflexivity | discriminate].
  - intros message ->. reflexivity.
  - intros message rest ->. reflexivity.
  - intros t message rest ->. reflexivity.
  - intros message H. apply acquire_fails_iff.
    destruct (acquire (pdfplumber_open pdf_path)) as [t | m].
    + exfalso. unfold route_and_parse in H.
      destruct (detect t) as [cls|]; discriminate.
    + injection H as H. now subst m.
Qed.

Lemma parse_returns_one_shape_witness :
  parse_credit_card_statement
    (fun _ => Opened [PageText (of_string "HDFC Bank Statement");
                      PageRaises (of_string "invalid float value")])
    (of_string "statement.pdf")
  = [("error",
      Some (of_string "Error reading PDF: " ++ of_string "invalid float value"))].
Proof.
  destruct (@parse_returns_one_shape
              (fun _ => Opened [PageText (of_string "HDFC Bank Statement");
                                PageRaises (of_string "invalid float value")])
              (of_string "statement.pdf")) as (_ & _ & _ & H & _).
  apply (H (of_string "HDFC Bank Statement") (of_string "invalid float value") []).
  reflexivity.
Defined.

(** ** Card variants *)

Lemma parse_bank_name cls t :
  dict_get (parse cls t) "bank_name" = Some (Some (get_bank_name cls)).
Proof. reflexivity. Qed.

Lemma parse_card_variant cls t :
  dict_get (parse cls t) "card_variant" = Some (Some (extract_card_variant cls t)).
Proof. reflexivity. Qed.

Lemma parse_field cls f t :
  dict_get (parse cls t) (field_key f) = Some (field_rule cls f t).
Proof. destruct f; reflexivity. Qed.

Lemma scan_keywords_cases (prefix : str) (kws : list string) (fallback t : str) :
  scan_keywords prefix kws fallback t = fallback \/
  exists card, In card kws /\
    scan_keywords prefix kws fallback t = prefix ++ of_string card.
Proof.
  induction kws as [|card kws IH]; simpl.
  - now left.
  - destruct (contains (upper card) (upper t)).
    + right. exists card. auto.
    + destruct IH as [IH | (c & Hc & IH)]; [now left|].
      right. exists c. auto.
Qed.

Lemma scan_keywords_none (prefix : str) (kws : list string) (fallback t : str) :
  (forall kw, In kw kws -> ~ occurs_in (upper kw) (upper t)) ->
  scan_keywords prefix kws fallback t = fallback.
Proof.
  induction kws as [|card kws IH]; simpl; intros H.
  - reflexivity.
  - assert (E : contains (upper card) (upper t) = false)
      by (apply contains_false_iff, H; now left).
    rewrite E. apply IH. intros kw Hkw. apply H. now right.
Qed.

(** C5, as stated, fails: with no product keyword in the text the Amex
    rule returns "Amex Card", which is not of the form
    "<Issuer> Credit Card". *)
Lemma card_variant_fallback_counterexample :
  (forall kw, In kw (keywords AmexParser) ->
              contains (upper kw) (upper "American Express statement") = false) /\
  extract_card_variant AmexParser "American Express statement"
  = of_string "Amex Card" /\
  forall issuer : str,
    extract_card_variant AmexParser "American Express statement"
    <> issuer ++ of_string " Credit Card".
Proof.
  split; [| split].
  - intros kw Hkw. simpl in Hkw.
    repeat (destruct Hkw as [<- | Hkw]; [reflexivity|]). destruct Hkw.
  - reflexivity.
  - intros issuer H.
    assert (E : extract_card_variant AmexParser "American Express statement"
                = of_string "Amex Card") by reflexivity.
    rewrite E in H. apply (f_equal (@List.length ascii)) in H.
    rewrite length_app in H. simpl in H. lia.
Qed.

(** C5, amended. The card-variant rule always yields a string, and when
    none of the issuer's product keywords occurs in the text, whatever
    the case of its letters, it yields that issuer's fallback label:
    "HDFC Credit Card", "Chase Credit Card", "SBI Credit Card",
    "Amex Card" or "Citi Card". *)
Theorem card_variant_fallback (cls : parser_class) (t : str) :
  In cls issuers ->
  (exists v, dict_get (parse cls t) "card_variant" = Some (Some v)) /\
  ((forall kw, In kw (keywords cls) -> ~ occurs_in (upper kw) (upper t)) ->
   dict_get (parse cls t) "card_variant" =
     Some (Some (match cls with
                 | HDFCParser => of_string "HDFC Credit Card"
                 | ChaseParser => of_string "Chase Credit Card"
                 | SBIParser => of_string "SBI Credit Card"
                 | AmexParser => of_string "Amex Card"
                 | CitiParser => of_string "Citi Card"
                 | BaseStatementParser => of_string "Standard Credit Card"
                 end))).
Proof.
  intros Hin. rewrite parse_card_variant. split; [eexists; reflexivity|].
  intros H. do 2 f_equal.
  destruct cls; try reflexivity; unfold extract_card_variant;
    now apply scan_keywords_none.
Qed.

Lemma card_variant_fallback_witness :
  dict_get (parse CitiParser "Citibank statement") "card_variant"
  = Some (Some (of_string "Citi Card")).
Proof.
  apply (@card_variant_fallback CitiParser "Citibank statement").
  - simpl; auto 6.
  - intros kw Hkw. apply contains_false_iff. simpl in Hkw.
    repeat (destruct Hkw as [<- | Hkw]; [reflexivity|]). destruct Hkw.
Defined.

(** ** Signatures and letter case *)

Lemma signature_literals_iff (cls : parser_class) (t : str) :
  signature cls t = true <->
  exists w, In w (signature_literals cls) /\
            occurs_in w (if folds_case cls then upper t else t).
Proof.
  destruct cls; simpl;
    try (rewrite orb_true_iff, !contains_iff; split;
         [ intros [H | H]; eauto
         | intros (w & [<- | [<- | []]] & H); auto ]).
  split; [discriminate | intros (w & [] & _)].
Qed.

Lemma chase_case_insensitive : case_insensitive ChaseParser.
Proof.
  intros t t' H. simpl. now rewrite (upper_of_same_letters H).
Qed.

Lemma case_insensitive_only_chase (cls : parser_class) :
  In cls issuers -> case_insensitive cls -> cls = ChaseParser.
Proof.
  intros Hin H. apply in_issuers in Hin.
  destruct cls; [now elim Hin | | reflexivity | | |]; exfalso.
  - specialize (H (of_string "HDFC") (of_string "hdfc") eq_refl). discriminate.
  - specialize (H (of_string "SBI Card") (of_string "sbi card") eq_refl).
    discriminate.
  - specialize (H (of_string "AMEX") (of_string "amex") eq_refl). discriminate.
  - specialize (H (of_string "Citi") (of_string "citi") eq_refl). discriminate.
Qed.

(** C8, as stated, fails: four of the five checks tell "HDFC" from
    "hdfc" and the like, so the case-insensitive checks are not the
    majority. *)
Lemma most_signatures_case_sensitive :
  (signature HDFCParser "HDFC" = true /\ signature HDFCParser "hdfc" = false) /\
  (signature SBIParser "SBI Card" = true /\ signature SBIParser "sbi card" = false) /\
  (signature AmexParser "AMEX" = true /\ signature AmexParser "amex" = false) /\
  (signature CitiParser "Citi" = true /\ signature CitiParser "citi" = false) /\
  ~ most_case_insensitive.
Proof.
  repeat split; try reflexivity.
  intros (l & Hnd & Hincl & Hlen & Hall).
  assert (Hc : forall cls, In cls l -> cls = ChaseParser).
  { intros cls Hcls. apply case_insensitive_only_chase; auto. }
  destruct l as [|x [|y l]]; simpl in Hlen; try lia.
  assert (x = ChaseParser) by (apply Hc; simpl; auto).
  assert (y = ChaseParser) by (apply Hc; simpl; auto).
  subst. inversion Hnd as [|? ? Hnotin _]. apply Hnotin. now left.
Qed.

(** C8, amended. A signature check is satisfied exactly when one of its
    literal substrings occurs in the text; the Chase check upper-cases
    the text first and is the only case-insensitive one, the checks of
    HDFC, SBI, Amex and Citi compare letters exactly. *)
Theorem signature_case_rules (cls : parser_class) (t : str) :
  In cls issuers ->
  (signature cls t = true <->
   exists w, In w (signature_literals cls) /\
             occurs_in w (if folds_case cls then upper t else t)) /\
  (case_insensitive cls <-> cls = ChaseParser).
Proof.
  intros Hin. split; [apply signature_literals_iff|].
  split; [now apply case_insensitive_only_chase|].
  intros ->. apply chase_case_insensitive.
Qed.

Lemma signature_case_rules_witness :
  (signature AmexParser "Your AMEX card" = true <->
   exists w, In w (signature_literals AmexParser) /\
             occurs_in w (if folds_case AmexParser
                          then upper "Your AMEX card" else "Your AMEX card")) /\
  (case_insensitive AmexParser <-> AmexParser = ChaseParser).
Proof.
  apply (@signature_case_rules AmexParser "Your AMEX card").
  simpl; auto 6.
Defined.

(** ** The base defaults *)

Lemma issuer_card_variant_not_default cls t :
  In cls issuers ->
  extract_card_variant cls t <> of_string "Standard Credit Card".
Proof.
  intros Hin. apply in_issuers in Hin.
  destruct cls; [now elim Hin | | | | |]; unfold extract_card_variant;
    match goal with
    | |- scan_keywords ?p ?k ?f t <> _ =>
        destruct (scan_keywords_cases p k f t) as [-> | (card & _ & ->)];
          discriminate
    end.
Qed.

Lemma issuer_summary_not_default cls t :
  In cls issuers ->
  extract_transaction_summary cls t <> Some (of_string "Summary not detected").
Proof.
  intros Hin. apply in_issuers in Hin.
  destruct cls; [now elim Hin | | | | |]; unfold extract_transaction_summary;
    match goal with
    | |- caption_or_none _ ?m <> _ => destruct m; discriminate
    end.
Qed.

(** C10. A result without the "error" key was built by one of the five
    issuer classes: its [bank_name] is one of the five issuer names, and
    none of the base-class defaults "Unknown Bank", "Standard Credit
    Card" and "Summary not detected" appears in it. *)
Theorem base_defaults_unreachable
        (pdfplumber_open : str -> document) (pdf_path : str) :
  let r := parse_credit_card_statement pdfplumber_open pdf_path in
  dict_get r "error" = None ->
  (exists cls t, In cls issuers /\ r = parse cls t) /\
  (exists b,
     dict_get r "bank_name" = Some (Some b) /\
     In b [of_string "HDFC Bank"; of_string "Chase Bank"; of_string "SBI Card";
           of_string "American Express"; of_string "Citibank"]) /\
  dict_get r "bank_name" <> Some (Some (of_string "Unknown Bank")) /\
  dict_get r "card_variant" <> Some (Some (of_string "Standard Credit Card")) /\
  dict_get r "transaction_info" <> Some (Some (of_string "Summary not detected")).
Proof.
  unfold parse_credit_card_statement.
  destruct (acquire (pdfplumber_open pdf_path)) as [t | m]; [|discriminate].
  unfold route_and_parse. destruct (detect t) as [cls|] eqn:E; [|discriminate].
  intros _. apply detect_some in E as (Hin & _ & _).
  split; [now exists cls, t|].
  rewrite parse_bank_name, parse_card_variant.
  change "transaction_info" with (field_key transaction_info).
  rewrite parse_field. simpl field_rule.
  repeat split.
  - exists (get_bank_name cls). split; [reflexivity|].
    apply in_issuers in Hin. destruct cls; simpl; auto 6. now elim Hin.
  - apply in_issuers in Hin. destruct cls; try discriminate. now elim Hin.
  - intros [= H]. revert H. now apply issuer_card_variant_not_default.
  - intros [= H]. apply (@issuer_summary_not_default cls t Hin). now f_equal.
Qed.

Lemma base_defaults_unreachable_witness :
  exists b,
    dict_get (parse_credit_card_statement
                (fun _ => Opened [PageText (of_string "Citibank statement")])
                (of_string "citi.pdf")) "bank_name" = Some (Some b) /\
    In b [of_string "HDFC Bank"; of_string "Chase Bank"; of_string "SBI Card";
          of_string "American Express"; of_string "Citibank"].
Proof.
  apply (@base_defaults_unreachable
           (fun _ => Opened [PageText (of_string "Citibank statement")])
           (of_string "citi.pdf")).
  reflexivity.
Defined.

(** ** Matching at a known occurrence *)

Lemma firstn_consumed (x rest : str) :
  firstn (List.length (x ++ rest) - List.length rest) (x ++ rest) = x.
Proof.
  rewrite length_app, Nat.add_sub.
  rewrite firstn_app, Nat.sub_diag, firstn_all. simpl. apply app_nil_r.
Qed.

Lemma accepts_digit ic c : accepts ic CDigit c = cset_mem CDigit c.
Proof.
  destruct ic; [|reflexivity].
  destruct c as [[] [] [] [] [] [] [] []]; reflexivity.
Qed.

Lemma accepts_digit_false ic c (A : Type) (x y : A) :
  cset_mem CDigit c = false ->
  (if accepts ic CDigit c then x else y) = y.
Proof. intros H. now rewrite accepts_digit, H. Qed.

Lemma rep_greedy_reached (A : Type) ok lo hi s (k : str -> option A) :
  reached hi = true ->
  rep_greedy ok lo hi s k = match lo with 0 => k s | S _ => None end.
Proof. intros H. destruct s; simpl; now rewrite H. Qed.

Section KnownOccurrence.

(** Run the matcher on the known part of the text: reduce to the next
    character test, decide it, and go on. *)
Ltac decide_accepts :=
  match goal with
  | |- context [accepts ?ic ?cs (Ascii ?b0 ?b1 ?b2 ?b3 ?b4 ?b5 ?b6 ?b7)] =>
      let b := eval vm_compute in
                 (accepts ic cs (Ascii b0 b1 b2 b3 b4 b5 b6 b7)) in
      change (accepts ic cs (Ascii b0 b1 b2 b3 b4 b5 b6 b7)) with b
  end.

Ltac head_step :=
  match goal with
  | |- ?X = _ =>
      let X' := eval lazy head beta iota zeta delta -[accepts] in X in
      change X with X'
  end.

Ltac run_matcher := head_step; repeat (decide_accepts; head_step).

Lemma chase_total_balance_here (post : str) :
  match_here Pat.chase_total_balance (of_string "New Balance $500.00" ++ post)
             IGNORECASE
  = Some (Some (of_string "500.00")).
Proof.
  destruct post as [|c post]; run_matcher.
  - reflexivity.
  - do 2 f_equal. exact (firstn_consumed (of_string "500.00") (c :: post)).
Qed.

Lemma chase_billing_cycle_here (post : str) :
  starts_with_digit post = false ->
  match_here Pat.chase_billing_cycle
             (of_string "Opening/Closing Date 01/01/22 - 01/31/22" ++ post)
             IGNORECASE
  = Some (Some (of_string "01/01/22 - 01/31/22")).
Proof.
  intros Hpost. destruct post as [|c post]; run_matcher.
  - reflexivity.
  - simpl in Hpost. rewrite (accepts_digit_false _ _ _ _ Hpost). run_matcher.
    do 2 f_equal.
    exact (firstn_consumed (of_string "01/01/22 - 01/31/22") (c :: post)).
Qed.

End KnownOccurrence.

(** Offsets at which the pattern does not match are passed over. *)
Lemma search_from_no_match_before r ic pre s : forall pos,
  no_match_before r (pre ++ s) ic (List.length pre) = true ->
  search_from r (pre ++ s) ic pos = search_from r s ic (pos + List.length pre).
Proof.
  induction pre as [|c pre IH]; intros pos; simpl.
  - now rewrite Nat.add_0_r.
  - destruct (match_here r (c :: pre ++ s) ic); [discriminate|].
    intros H. rewrite IH by exact H. f_equal. lia.
Qed.

Lemma search_first_match r ic pre s g :
  no_match_before r (pre ++ s) ic (List.length pre) = true ->
  match_here r s ic = Some g ->
  search r (pre ++ s) ic = Some {| m_start := List.length pre; group1 := g |}.
Proof.
  intros Hpre Hs. unfold search. rewrite search_from_no_match_before by exact Hpre.
  destruct s; simpl; now rewrite Hs.
Qed.

Lemma match_here_none_iff r ic s :
  match_here r s ic = None <->
  forall x rest, s = x ++ rest -> ~ lang ic r x.
Proof.
  split.
  - intros H x rest -> Hx. now apply (match_here_complete rest Hx).
  - intros H. destruct (match_here r s ic) as [g|] eqn:E; [|reflexivity].
    apply match_here_sound in E as (x & rest & -> & Hx). now elim (H x rest).
Qed.

(** [no_match_before r s ic n]: no string of the language of [r] starts
    at one of the first [n] offsets of [s]. *)
Lemma no_match_before_iff r ic n : forall s,
  no_match_before r s ic n = true <->
  forall pre x post,
    s = pre ++ x ++ post -> List.length pre < n -> ~ lang ic r x.
Proof.
  induction n as [|n IH]; intros s; simpl.
  - split; [intros _ pre x post _ Hlt; lia | reflexivity].
  - destruct (match_here r s ic) as [g|] eqn:E.
    + split; [discriminate|]. intros H.
      apply match_here_sound in E as (x & rest & -> & Hx).
      elim (H [] x rest); [reflexivity | simpl; lia | exact Hx].
    + pose proof (proj1 (match_here_none_iff r ic s) E) as Hhere.
      destruct s as [|c s].
      * split; [|reflexivity]. intros _ pre x post Hs _.
        destruct pre; [|discriminate]. now apply (Hhere x post).
      * rewrite IH. split.
        -- intros H pre x post Hs Hlt. destruct pre as [|c' pre].
           ++ now apply (Hhere x post).
           ++ injection Hs as _ Hs. apply (H pre x post Hs). simpl in Hlt. lia.
        -- intros H pre x post Hs Hlt.
           apply (H (c :: pre) x post); [simpl; now rewrite Hs | simpl; lia].
Qed.

(** ** The capturing group *)

(** Once group 1 has captured, it stays captured; a pattern all of whose
    ways go through the group hands a captured text to the rest of the
    match. *)
Lemma rmatch_group (A : Type) ic r :
  forall s g (k : str -> option str -> option A) v,
    rmatch ic r s g k = Some v ->
    exists rest g',
      k rest g' = Some v /\
      (is_some g || sets_group r = true -> is_some g' = true).
Proof.
  induction r as [| cs | a IHa b IHb | a IHa b IHb | a IHa
                 | cs lo hi greedy | a IHa]; intros s g k v; simpl.
  - intros H. exists s, g. split; [exact H | now rewrite orb_false_r].
  - destruct s as [|c s]; [discriminate|].
    destruct (accepts ic cs c); [|discriminate].
    intros H. exists s, g. split; [exact H | now rewrite orb_false_r].
  - intros H. apply IHa in H as (rest1 & g1 & H & H1).
    apply IHb in H as (rest2 & g2 & H & H2).
    exists rest2, g2. split; [exact H|].
    intros Hg. apply H2. apply orb_true_iff.
    apply orb_true_iff in Hg as [Hg | Hg].
    + left. apply H1. now rewrite Hg.
    + apply orb_true_iff in Hg as [Hg | Hg]; [left | now right].
      apply H1. rewrite Hg. apply orb_true_r.
  - destruct (rmatch ic a s g k) as [w|] eqn:E.
    + intros [= ->]. apply IHa in E as (rest & g' & H & H1).
      exists rest, g'. split; [exact H|].
      intros Hg. apply H1. apply orb_true_iff.
      apply orb_true_iff in Hg as [Hg | Hg]; [now left | right].
      now apply andb_true_iff in Hg.
    + intros H. apply IHb in H as (rest & g' & H & H1).
      exists rest, g'. split; [exact H|].
      intros Hg. apply H1. apply orb_true_iff.
      apply orb_true_iff in Hg as [Hg | Hg]; [now left | right].
      now apply andb_true_iff in Hg.
  - destruct (rmatch ic a s g k) as [w|] eqn:E.
    + intros [= ->]. apply IHa in E as (rest & g' & H & H1).
      exists rest, g'. split; [exact H|].
      intros Hg. apply H1. rewrite orb_false_r in Hg. now rewrite Hg.
    + intros H. exists s, g. split; [exact H | now rewrite orb_false_r].
  - intros H.
    assert (Hx : exists x rest, s = x ++ rest /\
              forallb (accepts ic cs) x = true /\ lo <= List.length x /\
              within hi (List.length x) /\ k rest g = Some v).
    { destruct greedy;
        [apply rep_greedy_sound in H | apply rep_lazy_sound in H]; exact H. }
    destruct Hx as (x & rest & _ & _ & _ & _ & Hk).
    exists rest, g. split; [exact Hk | now rewrite orb_false_r].
  - intros H. apply IHa in H as (rest & g' & H & _).
    eexists rest, _. split; [exact H | reflexivity].
Qed.

Lemma search_from_group r ic s : forall pos mo,
  sets_group r = true ->
  search_from r s ic pos = Some mo ->
  exists x, group1 mo = Some x.
Proof.
  assert (Hhere : forall s g, sets_group r = true ->
            match_here r s ic = Some g -> exists x, g = Some x).
  { intros s0 g Hr H. unfold match_here in H.
    apply rmatch_group in H as (rest & g' & [= <-] & Hg).
    rewrite Hr in Hg. destruct g' as [x|]; [now exists x|].
    discriminate Hg. reflexivity. }
  induction s as [|c s IH]; intros pos mo Hr; simpl.
  - destruct (match_here r [] ic) as [g|] eqn:E; [|discriminate].
    intros [= <-]. simpl. now apply (Hhere [] g).
  - destruct (match_here r (c :: s) ic) as [g|] eqn:E.
    + intros [= <-]. simpl. now apply (Hhere (c :: s) g).
    + now apply IH.
Qed.

Lemma field_patterns_set_group cls f r ic :
  field_pattern cls f = Some (r, ic) -> sets_group r = true.
Proof. destruct cls, f; simpl; intros [= <- <-]; reflexivity. Qed.

Lemma issuer_fields_have_patterns cls f :
  In cls issuers -> exists r ic, field_pattern cls f = Some (r, ic).
Proof.
  intros Hin. apply in_issuers in Hin.
  destruct cls, f; simpl; eauto; now elim Hin.
Qed.

(** A field rule is its search followed by the formatting of group 1. *)
Lemma field_rule_search cls f r ic t :
  field_pattern cls f = Some (r, ic) ->
  exists caption,
    field_rule cls f t =
    match search r t ic with
    | Some mo => option_map (fun x => caption ++ x) (group1 mo)
    | None => None
    end.
Proof.
  intros Hp. pose proof (field_patterns_set_group _ _ Hp) as Hg.
  assert (Hcap : forall caption,
            caption_or_none caption (search r t ic) =
            match search r t ic with
            | Some mo => option_map (fun x => caption ++ x) (group1 mo)
            | None => None
            end).
  { intros caption. unfold caption_or_none.
    destruct (search r t ic) as [mo|] eqn:E; [|reflexivity].
    apply search_from_group in E as [x Hx]; [|exact Hg]. now rewrite Hx. }
  assert (Hgrp : group1_or_none (search r t ic) =
            match search r t ic with
            | Some mo => option_map (fun x => [] ++ x) (group1 mo)
            | None => None
            end).
  { unfold group1_or_none. destruct (search r t ic) as [mo|]; [|reflexivity].
    now destruct (group1 mo). }
  destruct cls, f; simpl in Hp; try discriminate; injection Hp as <- <-;
    simpl field_rule;
    first [ exists []; exact Hgrp | eexists; apply Hcap ].
Qed.

Lemma field_rule_none_iff cls f r ic t :
  field_pattern cls f = Some (r, ic) ->
  (field_rule cls f t = None <-> search r t ic = None).
Proof.
  intros Hp. destruct (field_rule_search _ _ t Hp) as [caption ->].
  destruct (search r t ic) as [mo|] eqn:E; [|tauto].
  apply search_from_group in E as [x Hx];
    [| exact (field_patterns_set_group _ _ Hp)].
  rewrite Hx. simpl. split; discriminate.
Qed.

(** ** Fields that are not found *)

(** C6. For each issuer and each of the five pattern-based fields, when
    the rule's pattern matches nowhere in the text the rule returns
    [None], the "not found" marker, and that is the value of the field
    in the record; the rule is a total function, so nothing is raised. *)
Theorem absent_pattern_not_found
        (cls : parser_class) (f : field) (r : regex) (ic : flags) (t : str) :
  field_pattern cls f = Some (r, ic) ->
  pattern_absent r ic t ->
  field_rule cls f t = None /\
  dict_get (parse cls t) (field_key f) = Some None.
Proof.
  intros Hp Habs. apply search_none_iff in Habs.
  assert (H : field_rule cls f t = None) by now apply (field_rule_none_iff _ _ t Hp).
  split; [exact H | now rewrite parse_field, H].
Qed.

Lemma absent_pattern_not_found_witness :
  field_rule SBIParser payment_due_date "SBI Card statement" = None /\
  dict_get (parse SBIParser "SBI Card statement") (field_key payment_due_date)
  = Some None.
Proof.
  apply (@absent_pattern_not_found SBIParser payment_due_date
           Pat.sbi_due_date IGNORECASE "SBI Card statement").
  - reflexivity.
  - apply search_none_iff. reflexivity.
Defined.

(** Conversely a field is "not found" only when its pattern is absent. *)
Lemma not_found_pattern_absent cls f r ic t :
  field_pattern cls f = Some (r, ic) ->
  field_rule cls f t = None -> pattern_absent r ic t.
Proof.
  intros Hp H. apply search_none_iff. now apply (field_rule_none_iff _ _ t Hp).
Qed.

(** ** Letter case in field extraction *)

(** On the ASCII alphabet of the model, the rules that search under
    [re.IGNORECASE] find their field, or not, regardless of the case of
    the letters A-Z and a-z of the text. *)
Lemma ignorecase_rules_case_blind cls f r t t' :
  field_pattern cls f = Some (r, IGNORECASE) ->
  same_letters t t' ->
  (field_rule cls f t = None <-> field_rule cls f t' = None).
Proof.
  intros Hp Ht.
  rewrite (field_rule_none_iff _ _ t Hp), (field_rule_none_iff _ _ t' Hp).
  now apply search_ignorecase.
Qed.

(** Every field search passes [re.IGNORECASE] but the card-number
    searches of HDFC and SBI. *)
Lemma case_sensitive_field_patterns cls f r :
  field_pattern cls f = Some (r, NOFLAG) ->
  (cls = HDFCParser \/ cls = SBIParser) /\ f = card_last_4.
Proof. destruct cls, f; simpl; intros [= <-]; auto. Qed.

(** C7. The card-number searches of HDFC and SBI are the only field
    searches that do not pass [re.IGNORECASE]: a masked number written
    with a lower-case "x" is not found, while the same text with an
    upper-case "X" yields the last four digits.  The card-number
    searches of Chase, Amex and Citi pass the flag and find the number
    with the label in either case. *)
Theorem card_mask_case_sensitive :
  (same_letters "HDFC Bank Card No: xxxxxxxx1234"
                "HDFC Bank Card No: XXXXXXXX1234" /\
   dict_get (route_and_parse "HDFC Bank Card No: XXXXXXXX1234") "card_last_4"
   = Some (Some (of_string "1234")) /\
   dict_get (route_and_parse "HDFC Bank Card No: xxxxxxxx1234") "card_last_4"
   = Some None) /\
  (same_letters "SBI Card Number: xxxx xxxx xxxx 1234"
                "SBI Card Number: XXXX XXXX XXXX 1234" /\
   dict_get (route_and_parse "SBI Card Number: XXXX XXXX XXXX 1234") "card_last_4"
   = Some (Some (of_string "1234")) /\
   dict_get (route_and_parse "SBI Card Number: xxxx xxxx xxxx 1234") "card_last_4"
   = Some None) /\
  (dict_get (route_and_parse "Chase Account ending in 1234") "card_last_4"
   = Some (Some (of_string "1234")) /\
   dict_get (route_and_parse "Chase ACCOUNT ENDING IN 1234") "card_last_4"
   = Some (Some (of_string "1234"))) /\
  (dict_get (route_and_parse "AMEX Card ending in 12345") "card_last_4"
   = Some (Some (of_string "12345")) /\
   dict_get (route_and_parse "AMEX Card ENDING IN 12345") "card_last_4"
   = Some (Some (of_string "12345"))) /\
  (dict_get (route_and_parse "Citi Card 1234") "card_last_4"
   = Some (Some (of_string "1234")) /\
   dict_get (route_and_parse "Citi CARD 1234") "card_last_4"
   = Some (Some (of_string "1234"))) /\
  (forall cls f r,
     field_pattern cls f = Some (r, NOFLAG) <->
     (cls = HDFCParser /\ f = card_last_4 /\ r = Pat.hdfc_card_last_4) \/
     (cls = SBIParser /\ f = card_last_4 /\ r = Pat.sbi_card_last_4)).
Proof.
  repeat split; try reflexivity.
  - intros H. destruct cls, f; simpl in H; try discriminate;
      injection H as <-; auto.
  - intros [(-> & -> & ->) | (-> & -> & ->)]; reflexivity.
Qed.

(** ** The Chase scenario *)

Lemma upper_app (a b : str) : upper (a ++ b) = upper a ++ upper b.
Proof. apply map_app. Qed.

Lemma occurs_in_upper (p t : str) :
  occurs_in p t -> occurs_in (upper p) (upper t).
Proof.
  intros (a & b & ->). exists (upper a), (upper b). now rewrite !upper_app.
Qed.

(** C9, as stated, fails: a text may contain the three substrings and yet
    have an earlier "New Balance" amount, which is the one the search
    finds; and digits right after the closing date are captured too. *)
Lemma chase_scenario_counterexample :
  (contains "JPMORGAN" two_balances_text = true /\
   contains "New Balance $500.00" two_balances_text = true /\
   contains "Opening/Closing Date 01/01/22 - 01/31/22" two_balances_text = true /\
   signature HDFCParser two_balances_text = false /\
   dict_get (route_and_parse two_balances_text) "total_balance"
   = Some (Some (of_string "1.00"))) /\
  (contains "JPMORGAN" trailing_digit_text = true /\
   contains "New Balance $500.00" trailing_digit_text = true /\
   contains "Opening/Closing Date 01/01/22 - 01/31/22" trailing_digit_text = true /\
   signature HDFCParser trailing_digit_text = false /\
   dict_get (route_and_parse trailing_digit_text) "billing_cycle"
   = Some (Some (of_string "01/01/22 - 01/31/229"))).
Proof. repeat split; reflexivity. Qed.

(** C9, amended. A text containing "JPMORGAN" and no HDFC signature
    yields an extraction record whose [bank_name] is "Chase Bank".  Its
    [total_balance] is "500.00" when the balance pattern matches at no
    offset before an occurrence of "New Balance $500.00"; its
    [billing_cycle] is "01/01/22 - 01/31/22" when the cycle pattern
    matches at no offset before an occurrence of "Opening/Closing Date
    01/01/22 - 01/31/22" that is not directly followed by a digit. *)
Theorem chase_scenario (t : str) :
  occurs_in "JPMORGAN" t ->
  signature HDFCParser t = false ->
  is_extraction_result (route_and_parse t) /\
  dict_get (route_and_parse t) "bank_name" = Some (Some (of_string "Chase Bank")) /\
  (forall pre post,
     t = pre ++ of_string "New Balance $500.00" ++ post ->
     no_match_before Pat.chase_total_balance t IGNORECASE (List.length pre) = true ->
     dict_get (route_and_parse t) "total_balance"
     = Some (Some (of_string "500.00"))) /\
  (forall pre post,
     t = pre ++ of_string "Opening/Closing Date 01/01/22 - 01/31/22" ++ post ->
     starts_with_digit post = false ->
     no_match_before Pat.chase_billing_cycle t IGNORECASE (List.length pre) = true ->
     dict_get (route_and_parse t) "billing_cycle"
     = Some (Some (of_string "01/01/22 - 01/31/22"))).
Proof.
  intros Hjp Hhdfc.
  assert (E : detect t = Some ChaseParser).
  { unfold detect. rewrite Hhdfc.
    assert (Hc : signature ChaseParser t = true).
    { simpl. apply orb_true_iff. right. apply contains_iff.
      exact (occurs_in_upper Hjp). }
    now rewrite Hc. }
  rewrite (@route_and_parse_detected t _ E).
  split; [reflexivity|]. split; [reflexivity|]. split.
  - intros pre post -> Hpre.
    change "total_balance" with (field_key total_balance).
    rewrite parse_field. cbn [field_rule extract_total_balance].
    now rewrite (search_first_match _ _ _ _ Hpre (chase_total_balance_here post)).
  - intros pre post -> Hpost Hpre.
    change "billing_cycle" with (field_key billing_cycle).
    rewrite parse_field. cbn [field_rule extract_billing_cycle].
    now rewrite (search_first_match _ _ _ _ Hpre
                   (chase_billing_cycle_here post Hpost)).
Qed.

Lemma chase_scenario_witness :
  dict_get (route_and_parse scenario_text) "bank_name"
  = Some (Some (of_string "Chase Bank")) /\
  dict_get (route_and_parse scenario_text) "total_balance"
  = Some (Some (of_string "500.00")) /\
  dict_get (route_and_parse scenario_text) "billing_cycle"
  = Some (Some (of_string "01/01/22 - 01/31/22")).
Proof.
  assert (Hjp : occurs_in "JPMORGAN" scenario_text)
    by (apply contains_iff; reflexivity).
  assert (Hhdfc : signature HDFCParser scenario_text = false) by reflexivity.
  destruct (chase_scenario Hjp Hhdfc) as (_ & Hbank & Hbal & Hcycle).
  split; [exact Hbank | split].
  - apply (Hbal (of_string "JPMORGAN CHASE ")
                (of_string " Opening/Closing Date 01/01/22 - 01/31/22 "));
      reflexivity.
  - apply (Hcycle (of_string "JPMORGAN CHASE New Balance $500.00 ")
                  (of_string " ")); reflexivity.
Defined.

(** ** Other end-to-end scenarios *)

Example hdfc_statement :
  route_and_parse
    "HDFC Bank Millennia XXXXXXXX4321 Statement Date: 01/05/2024 Payment Due Date: 20/05/2024 Total Amount Due Rs 12,345.67 Debits 9,876.50"
  = [ ("bank_name", Some (of_string "HDFC Bank"));
      ("card_variant", Some (of_string "HDFC Millennia"));
      ("card_last_4", Some (of_string "4321"));
      ("billing_cycle", Some (of_string "Ends on 01/05/2024"));
      ("payment_due_date", Some (of_string "20/05/2024"));
      ("total_balance", Some (of_string "12,345.67"));
      ("transaction_info", Some (of_string "Total Debits: 9,876.50")) ].
Proof. reflexivity. Qed.

Example sbi_statement_without_labels :
  route_and_parse "SBI Card Number: XXXX XXXX XXXX 1234"
  = [ ("bank_name", Some (of_string "SBI Card"));
      ("card_variant", Some (of_string "SBI Credit Card"));
      ("card_last_4", Some (of_string "1234"));
      ("billing_cycle", None);
      ("payment_due_date", None);
      ("total_balance", None);
      ("transaction_info", None) ].
Proof. reflexivity. Qed.

Example amex_statement :
  route_and_parse
    "American Express Gold Card ending in 12345 Closing Date Jan 5, 2024 Payment Due Date Feb 12, 2024 New Balance due $1,200.00 New charges +$22.33"
  = [ ("bank_name", Some (of_string "American Express"));
      ("card_variant", Some (of_string "Amex Gold"));
      ("card_last_4", Some (of_string "12345"));
      ("billing_cycle", Some (of_string "Closing Date: Jan 5, 2024"));
      ("payment_due_date", Some (of_string "Feb 12, 2024"));
      ("total_balance", Some (of_string "1,200.00"));
      ("transaction_info", Some (of_string "New Charges: $22.33")) ].
Proof. reflexivity. Qed.

Example second_page_raises :
  parse_credit_card_statement
    (fun _ => Opened [PageText (of_string "HDFC Bank");
                      PageRaises (of_string "invalid float value");
                      PageText (of_string "never read")])
    (of_string "statement.pdf")
  = [ ("error", Some (of_string "Error reading PDF: invalid float value")) ].
Proof. reflexivity. Qed.

(** * Further properties of the code *)

(** ** The keyword scan of the card-variant rules *)

Lemma occurs_in_trans (a b c : str) :
  occurs_in a b -> occurs_in b c -> occurs_in a c.
Proof.
  intros (p & q & ->) (p' & q' & ->).
  exists (p' ++ p), (q ++ q'). now rewrite <- !app_assoc.
Qed.

Lemma contains_trans (a b c : str) :
  contains a b = true -> contains b c = true -> contains a c = true.
Proof. rewrite !contains_iff. apply occurs_in_trans. Qed.

Lemma contains_length (p s : str) :
  contains p s = true -> List.length p <= List.length s.
Proof.
  rewrite contains_iff. intros (a & b & ->). rewrite !length_app. lia.
Qed.

Lemma extract_card_variant_scan cls t :
  In cls issuers ->
  exists fallback,
    extract_card_variant cls t =
    scan_keywords (variant_prefix cls) (keywords cls) fallback t.
Proof.
  intros Hin. apply in_issuers in Hin.
  destruct cls; [now elim Hin | | | | |]; eexists; reflexivity.
Qed.

Lemma scan_keywords_first (prefix : str) (l1 : list string) (k : string)
      (l2 : list string) (fallback t : str) :
  (forall kw, In kw l1 -> ~ occurs_in (upper kw) (upper t)) ->
  occurs_in (upper k) (upper t) ->
  scan_keywords prefix (l1 ++ k :: l2) fallback t = prefix ++ of_string k.
Proof.
  induction l1 as [|c l1 IH]; simpl; intros Hl1 Hk.
  - apply contains_iff in Hk. now rewrite Hk.
  - assert (E : contains (upper c) (upper t) = false)
      by (apply contains_false_iff, Hl1; now left).
    rewrite E. apply IH; [|exact Hk]. intros kw Hkw. apply Hl1. now right.
Qed.

(** X1. The card-variant rule reports the first keyword of the issuer's
    list, in list order, that occurs in the text whatever the case of
    its letters, prefixed with the issuer's short name; later keywords
    that also occur are ignored. *)
Theorem first_keyword_wins
        (cls : parser_class) (t : str) (l1 : list string) (k : string)
        (l2 : list string) :
  In cls issuers ->
  keywords cls = l1 ++ k :: l2 ->
  (forall kw, In kw l1 -> ~ occurs_in (upper kw) (upper t)) ->
  occurs_in (upper k) (upper t) ->
  extract_card_variant cls t = variant_prefix cls ++ of_string k /\
  dict_get (parse cls t) "card_variant"
  = Some (Some (variant_prefix cls ++ of_string k)).
Proof.
  intros Hin Hk Hl1 Hocc.
  assert (E : extract_card_variant cls t = variant_prefix cls ++ of_string k).
  { destruct (extract_card_variant_scan t Hin) as [fallback ->].
    rewrite Hk. now apply scan_keywords_first. }
  split; [exact E | now rewrite parse_card_variant, E].
Qed.

Lemma first_keyword_wins_witness :
  extract_card_variant ChaseParser "chase FREEDOM unlimited, not Sapphire"
  = variant_prefix ChaseParser ++ of_string "Sapphire" /\
  dict_get (parse ChaseParser "chase FREEDOM unlimited, not Sapphire")
           "card_variant"
  = Some (Some (variant_prefix ChaseParser ++ of_string "Sapphire")).
Proof.
  apply (@first_keyword_wins ChaseParser
           "chase FREEDOM unlimited, not Sapphire" [] "Sapphire"
           ["Freedom"; "Ink"; "Slate"; "Amazon"]).
  - simpl; auto.
  - reflexivity.
  - intros kw [].
  - apply contains_iff. reflexivity.
Defined.

(** X2. The HDFC keyword "Business MoneyBack" is never reported: a text
    in which it occurs also contains the earlier keyword "MoneyBack", so
    the scan stops there or before. *)
Theorem business_moneyback_never_reported (t : str) :
  extract_card_variant HDFCParser t <> of_string "HDFC Business MoneyBack" /\
  (occurs_in (upper "Business MoneyBack") (upper t) ->
   In (extract_card_variant HDFCParser t)
      [of_string "HDFC Infinia"; of_string "HDFC Regalia";
       of_string "HDFC Millennia"; of_string "HDFC MoneyBack"]).
Proof.
  assert (Hsub : contains (upper "Business MoneyBack") (upper t) = true ->
                 contains (upper "MoneyBack") (upper t) = true).
  { apply contains_trans. reflexivity. }
  unfold extract_card_variant, keywords, scan_keywords. split.
  - destruct (contains (upper "Infinia") (upper t)); [discriminate|].
    destruct (contains (upper "Regalia") (upper t)); [discriminate|].
    destruct (contains (upper "Millennia") (upper t)); [discriminate|].
    destruct (contains (upper "MoneyBack") (upper t)) eqn:Emb; [discriminate|].
    destruct (contains (upper "Diners Club") (upper t)); [discriminate|].
    destruct (contains (upper "Business MoneyBack") (upper t)) eqn:Eb;
      [|discriminate].
    specialize (Hsub eq_refl). discriminate.
  - intros Hocc. apply contains_iff in Hocc. specialize (Hsub Hocc).
    destruct (contains (upper "Infinia") (upper t)); [simpl; auto|].
    destruct (contains (upper "Regalia") (upper t)); [simpl; auto|].
    destruct (contains (upper "Millennia") (upper t)); [simpl; auto|].
    rewrite Hsub. simpl; auto.
Qed.

Lemma business_moneyback_never_reported_witness :
  In (extract_card_variant HDFCParser "HDFC Business MoneyBack Credit Card")
     [of_string "HDFC Infinia"; of_string "HDFC Regalia";
      of_string "HDFC Millennia"; of_string "HDFC MoneyBack"].
Proof.
  apply (@business_moneyback_never_reported "HDFC Business MoneyBack Credit Card").
  apply contains_iff. reflexivity.
Defined.

(** ** Signatures that other signatures cover *)

(** X3. The second literal of the Citi signature is covered by the
    first: the Citi check holds exactly when "Citi" occurs in the text. *)
Theorem citi_signature_first_literal (t : str) :
  signature CitiParser t = true <-> occurs_in "Citi" t.
Proof.
  simpl. rewrite orb_true_iff, <- contains_iff. split; [|now left].
  intros [H | H]; [exact H|].
  revert H. apply contains_trans. reflexivity.
Qed.

Lemma upper_upper_char (c : ascii) : upper_char (upper_char c) = upper_char c.
Proof. destruct c as [[] [] [] [] [] [] [] []]; reflexivity. Qed.

Lemma upper_length (t : str) : List.length (upper t) = List.length t.
Proof. apply length_map. Qed.

(** A literal character of a pattern under [re.IGNORECASE] accepts the
    characters that upper-case to the same letter. *)
Lemma accepts_char_upper (p c : ascii) :
  accepts IGNORECASE (CChar p) c = true -> upper_char c = upper_char p.
Proof.
  unfold accepts, IGNORECASE. simpl. rewrite orb_true_iff, !Ascii.eqb_eq.
  intros [-> | ->]; [apply eq_sym, upper_lower_char | apply eq_sym, upper_upper_char].
Qed.

Lemma lang_lit_upper (w : str) : forall x,
  lang IGNORECASE (lit_chars w) x -> upper x = upper w.
Proof.
  induction w as [|p w IH]; intros x H; simpl in H.
  - inversion H; subst. reflexivity.
  - inversion H as [| | a b x1 x2 H1 H2 | | | | | |]; subst.
    inversion H1 as [| cs c Hc | | | | | | |]; subst. simpl.
    f_equal; [now apply accepts_char_upper | now apply IH].
Qed.

Lemma pattern_present_literal_prefix (w : str) (r : regex) (t : str) :
  pattern_present (Seq (lit_chars w) r) IGNORECASE t ->
  occurs_in (upper w) (upper t).
Proof.
  intros (pre & x & post & -> & H).
  inversion H as [| | a b x1 x2 H1 H2 | | | | | |]; subst.
  apply lang_lit_upper in H1.
  exists (upper pre), (upper (x2 ++ post)).
  now rewrite !upper_app, <- app_assoc, H1.
Qed.

(** ** What the router's order hides *)

Lemma purchase_has_chase_signature (t : str) :
  occurs_in (upper "Purchase") (upper t) -> signature ChaseParser t = true.
Proof.
  intros H. simpl. apply orb_true_iff. left. apply contains_iff.
  apply occurs_in_trans with (upper "Purchase"); [|exact H].
  apply contains_iff. reflexivity.
Qed.

(** X4. The Chase signature is looked for in the upper-cased text, so the
    word "purchase" carries it.  A statement routed to the Citi parser
    therefore contains no "Purchases" label, and its [transaction_info]
    is always [None]. *)
Theorem citi_transaction_info_never_found (t : str) :
  detect t = Some CitiParser ->
  ~ occurs_in (upper "Purchase") (upper t) /\
  extract_transaction_summary CitiParser t = None /\
  dict_get (route_and_parse t) "transaction_info" = Some None.
Proof.
  intros E. pose proof E as E'. apply detect_some in E' as (_ & _ & Hmin).
  assert (Hchase : signature ChaseParser t = false)
    by (apply Hmin; vm_compute; lia).
  assert (Hno : ~ occurs_in (upper "Purchase") (upper t)).
  { intros H. apply purchase_has_chase_signature in H. congruence. }
  assert (Hnone : extract_transaction_summary CitiParser t = None).
  { unfold extract_transaction_summary.
    destruct (search Pat.citi_transaction_summary t IGNORECASE) as [mo|] eqn:Es;
      [|reflexivity].
    exfalso. apply Hno. unfold search in Es. apply search_from_sound in Es.
    apply occurs_in_trans with (upper "Purchases").
    - apply contains_iff. reflexivity.
    - exact (@pattern_present_literal_prefix (of_string "Purchases") _ t Es). }
  repeat split; [exact Hno | exact Hnone |].
  rewrite (@route_and_parse_detected t _ E).
  change "transaction_info" with (field_key transaction_info).
  rewrite parse_field. cbn [field_rule]. now rewrite Hnone.
Qed.

Lemma citi_transaction_info_never_found_witness :
  ~ occurs_in (upper "Purchase") (upper "Citibank Payments $5.00") /\
  extract_transaction_summary CitiParser "Citibank Payments $5.00" = None /\
  dict_get (route_and_parse "Citibank Payments $5.00") "transaction_info"
  = Some None.
Proof.
  apply (@citi_transaction_info_never_found "Citibank Payments $5.00").
  reflexivity.
Defined.

(** X5. A text that mentions purchases, in any letter case, is never
    routed past the Chase parser: it goes to HDFC or to Chase, whatever
    other signatures it carries. *)
Theorem purchase_routes_to_hdfc_or_chase (t : str) :
  occurs_in (upper "Purchase") (upper t) ->
  detect t = Some HDFCParser \/ detect t = Some ChaseParser.
Proof.
  intros H. apply purchase_has_chase_signature in H.
  unfold detect. destruct (signature HDFCParser t); [now left|].
  rewrite H. now right.
Qed.

Lemma purchase_routes_to_hdfc_or_chase_witness :
  detect "Citibank Rewards Purchases $4.50" = Some HDFCParser \/
  detect "Citibank Rewards Purchases $4.50" = Some ChaseParser.
Proof.
  apply (@purchase_routes_to_hdfc_or_chase "Citibank Rewards Purchases $4.50").
  apply contains_iff. reflexivity.
Defined.

(** X6. No signature fits in fewer than four characters: a text shorter
    than that, the empty text of a document without pages among them, is
    answered with "Bank not detected". *)
Theorem short_text_not_detected (t : str) :
  List.length t < 4 ->
  detect t = None /\ route_and_parse t = bank_not_detected.
Proof.
  intros Hlen.
  assert (Hshort : forall (p : string) (s : str),
            List.length s = List.length t ->
            4 <= List.length (of_string p) -> contains p s = false).
  { intros p s Hs Hp. destruct (contains p s) eqn:E; [|reflexivity].
    apply contains_length in E. lia. }
  assert (E : detect t = None).
  { apply detect_none. intros cls _.
    destruct cls; cbn [signature]; try reflexivity;
      rewrite 2 Hshort; try reflexivity; try apply upper_length;
      vm_compute; lia. }
  split; [exact E|]. unfold route_and_parse. now rewrite E.
Qed.

Lemma short_text_not_detected_witness :
  detect "" = None /\ route_and_parse "" = bank_not_detected.
Proof.
  apply (@short_text_not_detected ""). simpl. lia.
Defined.

Lemma get_bank_name_inj (a b : parser_class) :
  get_bank_name a = get_bank_name b -> a = b.
Proof. destruct a, b; intros H; try reflexivity; discriminate. Qed.

(** X7. The [bank_name] of a result tells which parser the router chose:
    it is an issuer's name exactly when that issuer was selected. *)
Theorem bank_name_identifies_parser (t : str) (cls : parser_class) :
  dict_get (route_and_parse t) "bank_name" = Some (Some (get_bank_name cls)) <->
  detect t = Some cls.
Proof.
  unfold route_and_parse. destruct (detect t) as [c|].
  - rewrite parse_bank_name. split.
    + intros [= H]. now apply get_bank_name_inj in H as ->.
    + now intros [= ->].
  - split; discriminate.
Qed.

(** ** Reading the pages *)

Lemma read_two_pages (pages : list page) :
  acquire (Opened pages) = acquire (Opened (firstn 2 pages)).
Proof. destruct pages as [|p [|q rest]]; reflexivity. Qed.

(** X8. Only the first two pages of a document are read: two documents
    that agree on them give the same result, even when a later page
    would raise; and the text handed to the router is each of these
    pages followed by a newline. *)
Theorem pages_after_second_ignored
        (open1 open2 : str -> document) (path1 path2 : str)
        (pages1 pages2 : list page) :
  open1 path1 = Opened pages1 ->
  open2 path2 = Opened pages2 ->
  firstn 2 pages1 = firstn 2 pages2 ->
  parse_credit_card_statement open1 path1
  = parse_credit_card_statement open2 path2 /\
  (forall a b rest,
     pages1 = PageText a :: PageText b :: rest ->
     parse_credit_card_statement open1 path1
     = route_and_parse (a ++ newline ++ b ++ newline)).
Proof.
  intros H1 H2 Hpages. unfold parse_credit_card_statement.
  rewrite H1, H2, (read_two_pages pages1), (read_two_pages pages2), Hpages.
  split; [reflexivity|].
  intros a b rest ->. rewrite <- Hpages. simpl.
  now rewrite <- !app_assoc.
Qed.

Lemma pages_after_second_ignored_witness :
  parse_credit_card_statement
    (fun _ => Opened [PageText (of_string "SBI Card"); PageText (of_string "Elite");
                      PageRaises (of_string "broken page")])
    (of_string "a.pdf")
  = parse_credit_card_statement
      (fun _ => Opened [PageText (of_string "SBI Card"); PageText (of_string "Elite")])
      (of_string "b.pdf") /\
  (forall a b rest,
     [PageText (of_string "SBI Card"); PageText (of_string "Elite");
      PageRaises (of_string "broken page")]
     = PageText a :: PageText b :: rest ->
     parse_credit_card_statement
       (fun _ => Opened [PageText (of_string "SBI Card"); PageText (of_string "Elite");
                         PageRaises (of_string "broken page")])
       (of_string "a.pdf")
     = route_and_parse (a ++ newline ++ b ++ newline)).
Proof.
  apply (@pages_after_second_ignored
           (fun _ => Opened [PageText (of_string "SBI Card");
                             PageText (of_string "Elite");
                             PageRaises (of_string "broken page")])
           (fun _ => Opened [PageText (of_string "SBI Card");
                             PageText (of_string "Elite")])
           (of_string "a.pdf") (of_string "b.pdf")
           [PageText (of_string "SBI Card"); PageText (of_string "Elite");
            PageRaises (of_string "broken page")]
           [PageText (of_string "SBI Card"); PageText (of_string "Elite")]);
    reflexivity.
Defined.

(** ** What a rule captures *)

Lemma occurs_in_refl (x : str) : occurs_in x x.
Proof. exists [], []. now rewrite app_nil_r. Qed.

Lemma occurs_in_app_l (y x z : str) : occurs_in y x -> occurs_in y (x ++ z).
Proof.
  intros (a & b & ->). exists a, (b ++ z). now rewrite <- !app_assoc.
Qed.

Lemma occurs_in_app_r (y x z : str) : occurs_in y x -> occurs_in y (z ++ x).
Proof.
  intros (a & b & ->). exists (z ++ a), b. now rewrite <- !app_assoc.
Qed.

(** The text handed to the rest of the match as group 1 is either the
    one received, or a string of the language of a group of the pattern
    that lies inside the part of the text the pattern consumed. *)
Lemma rmatch_capture (A : Type) ic r :
  forall s g (k : str -> option str -> option A) v,
    rmatch ic r s g k = Some v ->
    exists x rest g',
      s = x ++ rest /\ lang ic r x /\ k rest g' = Some v /\
      (g' = g \/
       exists y a, g' = Some y /\ In a (group_bodies r) /\
                   lang ic a y /\ occurs_in y x).
Proof.
  induction r as [| cs | a IHa b IHb | a IHa b IHb | a IHa
                 | cs lo hi greedy | a IHa]; intros s g k v; simpl.
  - intros H. exists [], s, g. repeat split; [constructor | exact H | now left].
  - destruct s as [|c s]; [discriminate|].
    destruct (accepts ic cs c) eqn:Hc; [|discriminate].
    intros H. exists [c], s, g.
    repeat split; [now constructor | exact H | now left].
  - intros H. apply IHa in H as (x1 & rest1 & g1 & -> & Hx1 & H & Hg1).
    apply IHb in H as (x2 & rest2 & g2 & -> & Hx2 & H & Hg2).
    exists (x1 ++ x2), rest2, g2. rewrite <- app_assoc.
    repeat split; [now constructor | exact H |].
    destruct Hg2 as [-> | (y & c & -> & Hin & Hy & Hocc)].
    + destruct Hg1 as [-> | (y & c & -> & Hin & Hy & Hocc)]; [now left|].
      right. exists y, c. repeat split; auto.
      * apply in_or_app. now left.
      * now apply occurs_in_app_l.
    + right. exists y, c. repeat split; auto.
      * apply in_or_app. now right.
      * now apply occurs_in_app_r.
  - destruct (rmatch ic a s g k) as [w|] eqn:E.
    + intros [= ->]. apply IHa in E as (x & rest & g' & -> & Hx & H & Hg).
      exists x, rest, g'. repeat split; [now apply L_alt_l | exact H |].
      destruct Hg as [-> | (y & c & -> & Hin & Hy & Hocc)]; [now left|].
      right. exists y, c. repeat split; auto. apply in_or_app. now left.
    + intros H. apply IHb in H as (x & rest & g' & -> & Hx & H & Hg).
      exists x, rest, g'. repeat split; [now apply L_alt_r | exact H |].
      destruct Hg as [-> | (y & c & -> & Hin & Hy & Hocc)]; [now left|].
      right. exists y, c. repeat split; auto. apply in_or_app. now right.
  - destruct (rmatch ic a s g k) as [w|] eqn:E.
    + intros [= ->]. apply IHa in E as (x & rest & g' & -> & Hx & H & Hg).
      exists x, rest, g'. repeat split; [now apply L_opt_some | exact H | exact Hg].
    + intros H. exists [], s, g.
      repeat split; [apply L_opt_none | exact H | now left].
  - intros H.
    assert (Hx : exists x rest, s = x ++ rest /\
              forallb (accepts ic cs) x = true /\ lo <= List.length x /\
              within hi (List.length x) /\ k rest g = Some v).
    { destruct greedy;
        [apply rep_greedy_sound in H | apply rep_lazy_sound in H]; exact H. }
    destruct Hx as (x & rest & -> & Hok & Hlo & Hhi & Hk).
    exists x, rest, g. repeat split; [now constructor | exact Hk | now left].
  - intros H. apply IHa in H as (x & rest & g' & -> & Hx & H & _).
    rewrite firstn_consumed in H.
    exists x, rest, (Some x). repeat split; [now constructor | exact H |].
    right. exists x, a. repeat split; [now left | exact Hx | apply occurs_in_refl].
Qed.

Lemma search_from_capture r ic s : forall pos mo y,
  search_from r s ic pos = Some mo ->
  group1 mo = Some y ->
  exists a, In a (group_bodies r) /\ lang ic a y /\ occurs_in y s.
Proof.
  assert (Hhere : forall s0 g y, match_here r s0 ic = Some g -> g = Some y ->
            exists a, In a (group_bodies r) /\ lang ic a y /\ occurs_in y s0).
  { intros s0 g y H ->. unfold match_here in H.
    apply rmatch_capture in H as (x & rest & g' & -> & _ & [= ->] & Hg).
    destruct Hg as [[=] | (y' & a & [= <-] & Hin & Hy & Hocc)].
    exists a. repeat split; auto. now apply occurs_in_app_l. }
  induction s as [|c s IH]; intros pos mo y; simpl.
  - destruct (match_here r [] ic) as [g|] eqn:E; [|discriminate].
    intros [= <-]. simpl. now apply Hhere.
  - destruct (match_here r (c :: s) ic) as [g|] eqn:E.
    + intros [= <-]. simpl. now apply Hhere.
    + intros H Hy. destruct (IH (S pos) mo y H Hy) as (a & Hin & Ha & Hocc).
      exists a. repeat split; auto.
      now apply (@occurs_in_app_r y s [c]).
Qed.

Lemma field_rule_caption cls f r ic t :
  field_pattern cls f = Some (r, ic) ->
  field_rule cls f t =
  match search r t ic with
  | Some mo => option_map (fun y => field_caption cls f ++ y) (group1 mo)
  | None => None
  end.
Proof.
  intros Hp. pose proof (field_patterns_set_group _ _ Hp) as Hg.
  assert (Hcap : forall caption,
            caption_or_none caption (search r t ic) =
            match search r t ic with
            | Some mo => option_map (fun y => caption ++ y) (group1 mo)
            | None => None
            end).
  { intros caption. unfold caption_or_none.
    destruct (search r t ic) as [mo|] eqn:E; [|reflexivity].
    apply search_from_group in E as [x Hx]; [|exact Hg]. now rewrite Hx. }
  assert (Hgrp : group1_or_none (search r t ic) =
            match search r t ic with
            | Some mo => option_map (fun y => [] ++ y) (group1 mo)
            | None => None
            end).
  { unfold group1_or_none. destruct (search r t ic) as [mo|]; [|reflexivity].
    now destruct (group1 mo). }
  destruct cls, f; simpl in Hp; try discriminate; injection Hp as <- <-;
    cbn [field_rule extract_card_last_4 extract_billing_cycle extract_due_date
         extract_total_balance extract_transaction_summary field_caption];
    first [ exact Hgrp | apply Hcap ].
Qed.

Lemma field_value_captured
      (cls : parser_class) (f : field) (r : regex) (ic : flags) (t v : str) :
  field_pattern cls f = Some (r, ic) ->
  field_rule cls f t = Some v ->
  exists y a,
    v = field_caption cls f ++ y /\
    In a (group_bodies r) /\ lang ic a y /\ occurs_in y t.
Proof.
  intros Hp Hv. rewrite (field_rule_caption _ _ t Hp) in Hv.
  destruct (search r t ic) as [mo|] eqn:E; [|discriminate].
  destruct (group1 mo) as [y|] eqn:Hy; [|discriminate].
  injection Hv as <-.
  destruct (@search_from_capture r ic t 0 mo y E Hy) as (a & Hin & Ha & Hocc).
  now exists y, a.
Qed.

(** X9. A field of the record that was found is the rule's caption
    followed by the text captured by the pattern's group: a string of
    the language of the group that occurs in the statement text.  The
    rules never make up characters, and never interpolate a missing
    group. *)
Theorem found_value_is_captured_text
        (cls : parser_class) (f : field) (r : regex) (ic : flags)
        (t v : str) :
  field_pattern cls f = Some (r, ic) ->
  dict_get (parse cls t) (field_key f) = Some (Some v) ->
  exists y a,
    v = field_caption cls f ++ y /\
    In a (group_bodies r) /\ lang ic a y /\ occurs_in y t.
Proof.
  intros Hp Hv. rewrite parse_field in Hv. injection Hv as Hv.
  exact (field_value_captured _ _ t Hp Hv).
Qed.

Lemma found_value_is_captured_text_witness :
  exists y a,
    of_string "Ends on 01/05/2024" = field_caption HDFCParser billing_cycle ++ y /\
    In a (group_bodies Pat.hdfc_billing_cycle) /\
    lang IGNORECASE a y /\
    occurs_in y "HDFC Bank statement date: 01/05/2024".
Proof.
  apply (@found_value_is_captured_text HDFCParser billing_cycle
           Pat.hdfc_billing_cycle IGNORECASE
           "HDFC Bank statement date: 01/05/2024" "Ends on 01/05/2024");
    reflexivity.
Defined.

(** ** The shape of the captured values *)

Lemma accepts_amount_char ic c :
  accepts ic (CUnion CDigit (CChar ",")) c = is_amount_char c.
Proof.
  destruct ic; [|reflexivity].
  destruct c as [[] [] [] [] [] [] [] []]; reflexivity.
Qed.

Lemma accepts_dot ic c : accepts ic (CChar ".") c = true -> c = "."%char.
Proof.
  destruct ic, c as [[] [] [] [] [] [] [] []]; try discriminate; reflexivity.
Qed.

Lemma forallb_same (A : Type) (p q : A -> bool) (l : list A) :
  (forall a, p a = q a) -> forallb p l = forallb q l.
Proof. intros H. induction l as [|a l IH]; simpl; [reflexivity | now rewrite H, IH]. Qed.

Lemma lang_digits ic lo hi y :
  lang ic (digits lo hi) y ->
  forallb is_digit y = true /\ lo <= List.length y <= hi.
Proof.
  intros H. inversion H as [| | | | | | | cs lo' hi' gr x Hok Hlo Hhi |]; subst.
  simpl in Hhi. split; [|lia].
  rewrite <- Hok. apply forallb_same. intros c. symmetry. apply accepts_digit.
Qed.

Lemma lang_amount ic y :
  lang ic amount y ->
  exists whole frac,
    y = whole ++ of_string "." ++ frac /\
    whole <> [] /\ forallb is_amount_char whole = true /\
    List.length frac = 2 /\ forallb is_digit frac = true.
Proof.
  unfold amount, cat. simpl fold_right. intros H.
  inversion H as [| | a b whole rest1 Hw H1 | | | | | |]; subst.
  inversion H1 as [| | a b dot rest2 Hd H2 | | | | | |]; subst.
  inversion H2 as [| | a b frac rest3 Hf H3 | | | | | |]; subst.
  inversion H3; subst.
  inversion Hw as [| | | | | | | cs lo' hi' gr x Hok Hlo Hhi |]; subst.
  unfold lit, of_string in Hd. simpl in Hd.
  inversion Hd as [| | a b d1 d2 Hd1 Hd2 | | | | | |]; subst.
  inversion Hd1 as [| cs c Hc | | | | | | |]; subst.
  inversion Hd2; subst. apply accepts_dot in Hc. subst c.
  apply lang_digits in Hf as [Hfd Hfl].
  exists whole, frac. simpl app. rewrite app_nil_r.
  split; [reflexivity|]. split; [intros ->; simpl in Hlo; lia|].
  split; [|split; [lia | exact Hfd]].
  rewrite <- Hok. apply forallb_same. intros c. symmetry.
  apply accepts_amount_char.
Qed.

(** X10. A card number that is found is made of digits only, occurs in
    the statement text, and has four characters, or five for Amex. *)
Theorem card_last_4_digits (cls : parser_class) (t v : str) :
  extract_card_last_4 cls t = Some v ->
  occurs_in v t /\ forallb is_digit v = true /\
  (List.length v = 4 \/ (cls = AmexParser /\ List.length v = 5)).
Proof.
  intros Hv.
  assert (Hin : In cls issuers).
  { apply in_issuers. intros ->. discriminate. }
  destruct (issuer_fields_have_patterns card_last_4 Hin) as (r & ic & Hp).
  destruct (@field_value_captured cls card_last_4 r ic t v Hp Hv)
    as (y & a & -> & Ha & Hy & Hocc).
  assert (Hcap : field_caption cls card_last_4 = []) by now destruct cls.
  rewrite Hcap. simpl app.
  destruct cls; simpl in Hp; try discriminate; injection Hp as <- <-;
    simpl in Ha; destruct Ha as [<- | []];
    apply lang_digits in Hy as [Hd Hl]; repeat split; auto; try lia.
  destruct (Nat.eq_dec (List.length y) 4); [now left | right; split; [reflexivity | lia]].
Qed.

Lemma card_last_4_digits_witness :
  occurs_in "12345" "American Express ending in 123456" /\
  forallb is_digit (of_string "12345") = true /\
  (List.length (of_string "12345") = 4 \/
   (AmexParser = AmexParser /\ List.length (of_string "12345") = 5)).
Proof.
  apply (@card_last_4_digits AmexParser "American Express ending in 123456" "12345").
  reflexivity.
Defined.

Lemma total_balance_shape (cls : parser_class) (t v : str) :
  extract_total_balance cls t = Some v ->
  occurs_in v t /\
  exists whole frac,
    v = whole ++ of_string "." ++ frac /\
    whole <> [] /\ forallb is_amount_char whole = true /\
    List.length frac = 2 /\ forallb is_digit frac = true.
Proof.
  intros Hv.
  assert (Hin : In cls issuers).
  { apply in_issuers. intros ->. discriminate. }
  destruct (issuer_fields_have_patterns total_balance Hin) as (r & ic & Hp).
  destruct (@field_value_captured cls total_balance r ic t v Hp Hv)
    as (y & a & -> & Ha & Hy & Hocc).
  assert (Hcap : field_caption cls total_balance = []) by now destruct cls.
  rewrite Hcap. simpl app. split; [exact Hocc|].
  destruct cls; simpl in Hp; try discriminate; injection Hp as <- <-;
    simpl in Ha; destruct Ha as [<- | []]; now apply lang_amount in Hy.
Qed.

(** X11. A total balance that is found occurs in the statement text and
    reads as one or more digits and commas, a point, and exactly two
    digits; the currency sign is never part of it. *)
Theorem total_balance_format (cls : parser_class) (t v : str) :
  dict_get (parse cls t) "total_balance" = Some (Some v) ->
  occurs_in v t /\
  exists whole frac,
    v = whole ++ of_string "." ++ frac /\
    whole <> [] /\ forallb is_amount_char whole = true /\
    List.length frac = 2 /\ forallb is_digit frac = true.
Proof.
  change "total_balance" with (field_key total_balance).
  rewrite parse_field. cbn [field_rule]. intros [= Hv].
  exact (total_balance_shape cls t Hv).
Qed.

Lemma total_balance_format_witness :
  occurs_in "12,345.67" "HDFC Total Amount Due Rs 12,345.678" /\
  exists whole frac,
    of_string "12,345.67" = whole ++ of_string "." ++ frac /\
    whole <> [] /\ forallb is_amount_char whole = true /\
    List.length frac = 2 /\ forallb is_digit frac = true.
Proof.
  apply (@total_balance_format HDFCParser
           "HDFC Total Amount Due Rs 12,345.678" "12,345.67").
  reflexivity.
Defined.

(** ** Letter case and the values found *)

Lemma same_letters_nil_inv (s : str) : same_letters [] s -> s = [].
Proof. destruct s; [reflexivity | discriminate]. Qed.

Lemma same_letters_cons_inv (c : ascii) (s u : str) :
  same_letters (c :: s) u ->
  exists c' s', u = c' :: s' /\ lower_char c = lower_char c' /\ same_letters s s'.
Proof.
  destruct u as [|c' s']; [discriminate|].
  unfold same_letters, lower. simpl. intros [= Hc Hs]. now exists c', s'.
Qed.

Lemma same_letters_firstn (n : nat) (s s' : str) :
  same_letters s s' -> same_letters (firstn n s) (firstn n s').
Proof.
  unfold same_letters, lower. intros H. now rewrite <- !firstn_map, H.
Qed.

Section SameLetters.
Variables A B : Type.
Variable Q : A -> B -> Prop.

Lemma stop_rel lo (k : str -> option A) (k' : str -> option B) s s' :
  orel Q (k s) (k' s') ->
  orel Q (match lo with 0 => k s | S _ => None end)
         (match lo with 0 => k' s' | S _ => None end).
Proof. destruct lo; [auto | intros _; exact I]. Qed.

Lemma rep_greedy_same_letters cs s : forall s' lo hi
    (k : str -> option A) (k' : str -> option B),
  same_letters s s' ->
  (forall u u', same_letters u u' -> orel Q (k u) (k' u')) ->
  orel Q (rep_greedy (accepts IGNORECASE cs) lo hi s k)
         (rep_greedy (accepts IGNORECASE cs) lo hi s' k').
Proof.
  induction s as [|c s IH]; intros s' lo hi k k' Hs Hk.
  - apply same_letters_nil_inv in Hs as ->. cbn [rep_greedy].
    destruct (reached hi); apply stop_rel, Hk; reflexivity.
  - pose proof Hs as Hs0.
    apply same_letters_cons_inv in Hs as (c' & s1 & -> & Hc & Hs). cbn [rep_greedy].
    assert (Hstop : orel Q (match lo with 0 => k (c :: s) | S _ => None end)
                           (match lo with 0 => k' (c' :: s1) | S _ => None end))
      by (apply stop_rel, Hk, Hs0).
    destruct (reached hi); [exact Hstop|].
    rewrite (accepts_same_letter cs c c' Hc).
    destruct (accepts IGNORECASE cs c'); [|exact Hstop].
    specialize (IH s1 (pred lo) (option_map pred hi) k k' Hs Hk).
    destruct (rep_greedy (accepts IGNORECASE cs) (pred lo) (option_map pred hi) s k),
             (rep_greedy (accepts IGNORECASE cs) (pred lo) (option_map pred hi) s1 k');
      simpl in IH; try contradiction; [exact IH | exact Hstop].
Qed.

Lemma rep_lazy_same_letters cs s : forall s' lo hi
    (k : str -> option A) (k' : str -> option B),
  same_letters s s' ->
  (forall u u', same_letters u u' -> orel Q (k u) (k' u')) ->
  orel Q (rep_lazy (accepts IGNORECASE cs) lo hi s k)
         (rep_lazy (accepts IGNORECASE cs) lo hi s' k').
Proof.
  induction s as [|c s IH]; intros s' lo hi k k' Hs Hk.
  - apply same_letters_nil_inv in Hs as ->. cbn [rep_lazy].
    destruct lo; [|now destruct (reached hi)].
    specialize (Hk [] [] eq_refl).
    destruct (k []), (k' []); simpl in Hk; try contradiction;
      [exact Hk | now destruct (reached hi)].
  - pose proof Hs as Hs0.
    apply same_letters_cons_inv in Hs as (c' & s1 & -> & Hc & Hs). cbn [rep_lazy].
    assert (Hmore :
      orel Q (if reached hi then None
              else if accepts IGNORECASE cs c
                   then rep_lazy (accepts IGNORECASE cs) (pred lo)
                                 (option_map pred hi) s k
                   else None)
             (if reached hi then None
              else if accepts IGNORECASE cs c'
                   then rep_lazy (accepts IGNORECASE cs) (pred lo)
                                 (option_map pred hi) s1 k'
                   else None)).
    { destruct (reached hi); [exact I|].
      rewrite (accepts_same_letter cs c c' Hc).
      destruct (accepts IGNORECASE cs c'); [|exact I]. now apply IH. }
    destruct lo; [|exact Hmore].
    specialize (Hk _ _ Hs0).
    destruct (k (c :: s)), (k' (c' :: s1)); simpl in Hk; try contradiction;
      [exact Hk | exact Hmore].
Qed.

(** Under [re.IGNORECASE] the matcher takes the same decisions on two
    ASCII texts that differ only in the case of the letters A-Z and
    a-z. *)
Lemma rmatch_same_letters r : forall s s' g g'
    (k : str -> option str -> option A) (k' : str -> option str -> option B),
  same_letters s s' ->
  same_letters_opt g g' ->
  (forall u u' h h', same_letters u u' -> same_letters_opt h h' ->
                     orel Q (k u h) (k' u' h')) ->
  orel Q (rmatch IGNORECASE r s g k) (rmatch IGNORECASE r s' g' k').
Proof.
  induction r as [| cs | a IHa b IHb | a IHa b IHb | a IHa
                 | cs lo hi greedy | a IHa]; intros s s' g g' k k' Hs Hg Hk;
    cbn [rmatch].
  - now apply Hk.
  - destruct s as [|c s].
    + apply same_letters_nil_inv in Hs as ->. exact I.
    + apply same_letters_cons_inv in Hs as (c' & s1 & -> & Hc & Hs).
      rewrite (accepts_same_letter cs c c' Hc).
      destruct (accepts IGNORECASE cs c'); [now apply Hk | exact I].
  - apply IHa; [exact Hs | exact Hg |]. intros u u' h h' Hu Hh. now apply IHb.
  - specialize (IHa s s' g g' k k' Hs Hg Hk).
    destruct (rmatch IGNORECASE a s g k), (rmatch IGNORECASE a s' g' k');
      simpl in IHa; try contradiction; [exact IHa | now apply IHb].
  - specialize (IHa s s' g g' k k' Hs Hg Hk).
    destruct (rmatch IGNORECASE a s g k), (rmatch IGNORECASE a s' g' k');
      simpl in IHa; try contradiction; [exact IHa | now apply Hk].
  - destruct greedy;
      [apply rep_greedy_same_letters | apply rep_lazy_same_letters]; auto.
  - apply IHa; [exact Hs | exact Hg |]. intros u u' _ _ Hu _.
    apply Hk; [exact Hu|].
    simpl. rewrite (same_letters_length Hs), (same_letters_length Hu).
    now apply same_letters_firstn.
Qed.

End SameLetters.

Lemma search_from_same_letters r s : forall s' pos,
  same_letters s s' ->
  orel same_match (search_from r s IGNORECASE pos)
                  (search_from r s' IGNORECASE pos).
Proof.
  assert (Hhere : forall u u', same_letters u u' ->
            orel same_letters_opt (match_here r u IGNORECASE)
                                  (match_here r u' IGNORECASE)).
  { intros u u' Hu. unfold match_here.
    apply rmatch_same_letters; [exact Hu | exact I |].
    intros _ _ h h' _ Hh. exact Hh. }
  induction s as [|c s IH]; intros s' pos Hs.
  - pose proof (Hhere _ _ Hs) as H.
    apply same_letters_nil_inv in Hs as ->. simpl.
    destruct (match_here r [] IGNORECASE); simpl in H; [|exact I].
    split; [reflexivity | exact H].
  - pose proof (Hhere _ _ Hs) as H.
    apply same_letters_cons_inv in Hs as (c' & s1 & -> & Hc & Hs). simpl.
    destruct (match_here r (c :: s) IGNORECASE),
             (match_here r (c' :: s1) IGNORECASE);
      simpl in H; try contradiction.
    + split; [reflexivity | exact H].
    + now apply IH.
Qed.

Lemma same_letters_app (a a' b b' : str) :
  same_letters a a' -> same_letters b b' -> same_letters (a ++ b) (a' ++ b').
Proof.
  unfold same_letters, lower. intros Ha Hb. now rewrite !map_app, Ha, Hb.
Qed.

Lemma field_rule_same_letters
      (cls : parser_class) (f : field) (r : regex) (t t' : str) :
  field_pattern cls f = Some (r, IGNORECASE) ->
  same_letters t t' ->
  same_letters_opt (field_rule cls f t) (field_rule cls f t').
Proof.
  intros Hp Ht.
  rewrite (field_rule_caption _ _ t Hp), (field_rule_caption _ _ t' Hp).
  pose proof (@search_from_same_letters r t t' 0 Ht) as H. unfold search.
  destruct (search_from r t IGNORECASE 0) as [mo|] eqn:E,
           (search_from r t' IGNORECASE 0) as [mo'|] eqn:E';
    simpl in H; try contradiction; [|exact I].
  destruct H as [_ H].
  destruct (@search_from_group r IGNORECASE t 0 mo
              (field_patterns_set_group _ _ Hp) E) as [y Hy].
  destruct (@search_from_group r IGNORECASE t' 0 mo'
              (field_patterns_set_group _ _ Hp) E') as [y' Hy'].
  rewrite Hy, Hy' in *. simpl in *.
  apply same_letters_app; [reflexivity | exact H].
Qed.

Lemma is_ascii7_lower (c : ascii) : is_ascii7 (lower_char c) = is_ascii7 c.
Proof. destruct c as [[] [] [] [] [] [] [] []]; reflexivity. Qed.

Lemma same_letters_ascii_text (t : str) : forall t',
  same_letters t t' -> ascii_text t -> ascii_text t'.
Proof.
  unfold ascii_text.
  induction t as [|c t IH]; intros t' Hs Ht.
  - now apply same_letters_nil_inv in Hs as ->.
  - apply same_letters_cons_inv in Hs as (c' & t1 & -> & Hc & Hs).
    simpl in *. apply andb_true_iff in Ht as [Hc7 Ht].
    apply andb_true_iff. split; [|now apply IH].
    now rewrite <- is_ascii7_lower, <- Hc, is_ascii7_lower.
Qed.

(** X12. On ASCII text, a rule that searches under [re.IGNORECASE] finds
    its field in both or in neither of two texts that differ only in the
    case of their letters A-Z and a-z, and the two values of the record
    differ at most in the case of those letters. *)
Theorem found_values_same_letters
        (cls : parser_class) (f : field) (r : regex) (t t' : str) :
  field_pattern cls f = Some (r, IGNORECASE) ->
  ascii_text t ->
  same_letters t t' ->
  ascii_text t' /\
  exists o o',
    dict_get (parse cls t) (field_key f) = Some o /\
    dict_get (parse cls t') (field_key f) = Some o' /\
    same_letters_opt o o'.
Proof.
  intros Hp Hascii Ht. split; [exact (same_letters_ascii_text Ht Hascii)|].
  exists (field_rule cls f t), (field_rule cls f t').
  rewrite !parse_field. repeat split.
  exact (field_rule_same_letters _ _ Hp Ht).
Qed.

Lemma found_values_same_letters_witness :
  ascii_text "AMEX Payment Due Date Jan 5, 2024" /\
  exists o o',
    dict_get (parse AmexParser "AMEX PAYMENT DUE DATE JAN 5, 2024")
             (field_key payment_due_date) = Some o /\
    dict_get (parse AmexParser "AMEX Payment Due Date Jan 5, 2024")
             (field_key payment_due_date) = Some o' /\
    same_letters_opt o o'.
Proof.
  apply (@found_values_same_letters AmexParser payment_due_date
           Pat.amex_due_date); reflexivity.
Defined.

Lemma lower_char_cases (c : ascii) :
  lower_char c = c \/ is_lower (lower_char c) = true.
Proof. destruct c as [[] [] [] [] [] [] [] []]; auto. Qed.

Lemma uncased_lower (c c' : ascii) :
  uncased c = true -> lower_char c = lower_char c' -> c = c'.
Proof.
  unfold uncased. rewrite andb_true_iff, !negb_true_iff. intros [Hl Hu] H.
  assert (Hc : lower_char c = c) by (unfold lower_char; now rewrite Hu).
  rewrite Hc in H. destruct (lower_char_cases c') as [E | E].
  - now rewrite E in H.
  - rewrite <- H in E. congruence.
Qed.

Lemma same_letters_uncased (v : str) : forall v',
  forallb uncased v = true -> same_letters v v' -> v = v'.
Proof.
  induction v as [|c v IH]; intros v' Hv Hs.
  - now apply same_letters_nil_inv in Hs.
  - apply same_letters_cons_inv in Hs as (c' & v1 & -> & Hc & Hs).
    simpl in Hv. apply andb_true_iff in Hv as [Hu Hv].
    f_equal; [now apply uncased_lower | now apply IH].
Qed.

Lemma amount_char_uncased (c : ascii) : is_amount_char c = true -> uncased c = true.
Proof. destruct c as [[] [] [] [] [] [] [] []]; try discriminate; reflexivity. Qed.

Lemma digit_uncased (c : ascii) : is_digit c = true -> uncased c = true.
Proof. destruct c as [[] [] [] [] [] [] [] []]; try discriminate; reflexivity. Qed.

Lemma forallb_impl (A : Type) (p q : A -> bool) (l : list A) :
  (forall a, p a = true -> q a = true) ->
  forallb p l = true -> forallb q l = true.
Proof.
  intros H. induction l as [|a l IH]; simpl; [reflexivity|].
  rewrite !andb_true_iff. intros [Ha Hl]. auto.
Qed.

(** X13. The total balance does not depend on the case of the letters of
    the statement: two texts that differ only in letter case give the
    same balance, found or not, with every parser. *)
Theorem total_balance_case_blind (cls : parser_class) (t t' : str) :
  same_letters t t' ->
  extract_total_balance cls t = extract_total_balance cls t'.
Proof.
  intros Ht.
  destruct (parser_class_eqb cls BaseStatementParser) eqn:Eb.
  { destruct cls; try discriminate. reflexivity. }
  assert (Hin : In cls issuers)
    by (apply in_issuers; intros ->; discriminate).
  assert (Hp : exists r, field_pattern cls total_balance = Some (r, IGNORECASE)).
  { apply in_issuers in Hin. destruct cls; simpl; eauto. now elim Hin. }
  destruct Hp as [r Hp].
  pose proof (@field_rule_same_letters cls total_balance r t t' Hp Ht) as H.
  cbn [field_rule] in H.
  destruct (extract_total_balance cls t) as [v|] eqn:E,
           (extract_total_balance cls t') as [v'|] eqn:E';
    simpl in H; try contradiction; [|reflexivity].
  f_equal. apply same_letters_uncased; [|exact H].
  apply total_balance_shape in E as (_ & whole & frac & -> & _ & Hw & _ & Hf).
  rewrite !forallb_app.
  rewrite (@forallb_impl _ _ _ whole amount_char_uncased Hw).
  rewrite (@forallb_impl _ _ _ frac digit_uncased Hf). reflexivity.
Qed.

Lemma total_balance_case_blind_witness :
  extract_total_balance ChaseParser "CHASE NEW BALANCE $1,500.00"
  = extract_total_balance ChaseParser "Chase New Balance $1,500.00".
Proof.
  apply (@total_balance_case_blind ChaseParser
           "CHASE NEW BALANCE $1,500.00" "Chase New Balance $1,500.00").
  reflexivity.
Defined.

(** ** Text around a statement *)

Lemma contains_app_mono (p t a b : str) :
  contains p t = true -> contains p (a ++ t ++ b) = true.
Proof.
  rewrite !contains_iff. intros H.
  apply occurs_in_app_r, occurs_in_app_l, H.
Qed.

Lemma signature_app_mono (cls : parser_class) (t a b : str) :
  signature cls t = true -> signature cls (a ++ t ++ b) = true.
Proof.
  destruct cls; cbn [signature]; try discriminate;
    rewrite ?upper_app, !orb_true_iff;
    intros [H | H]; [left | right | left | right | left | right | left | right
                    | left | right]; now apply contains_app_mono.
Qed.

(** X14. Text added before or after a statement never loses the
    detection: the router still selects an issuer, the same one or one
    registered earlier. *)
Theorem surrounding_text_keeps_detection (t a b : str) (cls : parser_class) :
  detect t = Some cls ->
  exists w, detect (a ++ t ++ b) = Some w /\ rank w <= rank cls.
Proof.
  intros E. apply detect_some in E as (Hin & Hs & _).
  pose proof (@signature_app_mono cls t a b Hs) as Hs'.
  destruct (detect (a ++ t ++ b)) as [w|] eqn:E'.
  - exists w. split; [reflexivity|].
    apply detect_some in E' as (_ & _ & Hmin).
    destruct (Nat.le_gt_cases (rank w) (rank cls)) as [|Hlt]; [assumption|].
    apply Hmin in Hlt. congruence.
  - apply detect_none with (cls := cls) in E'; [congruence | exact Hin].
Qed.

Lemma surrounding_text_keeps_detection_witness :
  exists w,
    detect (of_string "Paid from HDFC account. " ++ of_string "Citibank statement"
            ++ of_string " Thank you.") = Some w /\
    rank w <= rank CitiParser.
Proof.
  apply (@surrounding_text_keeps_detection "Citibank statement"
           "Paid from HDFC account. " " Thank you." CitiParser).
  reflexivity.
Defined.

(** ** The printed report *)

Lemma report_parse cls t :
  report (parse cls t)
  = map (fun kv => of_string (fst kv) ++ of_string ": " ++ fmt (snd kv))
        (parse cls t).
Proof. reflexivity. Qed.

(** X15. For an error result the script calls [print] once, with
    "FAILED: " and the message.  Otherwise it calls [print] seven times,
    once per field in the order of the record, each time with the key,
    ": " and the value; a field that was not found is printed as its key
    followed by ": None". *)
Theorem report_prints
        (pdfplumber_open : str -> document) (pdf_path : str) (f : field) :
  let r := parse_credit_card_statement pdfplumber_open pdf_path in
  (forall m, dict_get r "error" = Some (Some m) ->
             report r = [of_string "FAILED: " ++ m]) /\
  (dict_get r "error" = None ->
   report r
   = map (fun key =>
            of_string key ++ of_string ": " ++
            fmt (match dict_get r key with Some v => v | None => None end))
         extraction_keys /\
   List.length (report r) = 7 /\
   (dict_get r (field_key f) = Some None ->
    In (of_string (field_key f) ++ of_string ": None") (report r))).
Proof.
  unfold parse_credit_card_statement.
  destruct (acquire (pdfplumber_open pdf_path)) as [t | msg]; cbn zeta.
  - unfold route_and_parse. destruct (detect t) as [cls|].
    + split; [discriminate|]. intros _.
      split; [reflexivity|]. split; [reflexivity|].
      rewrite parse_field, report_parse. intros [= Hf].
      unfold parse. cbn [map fst snd].
      destruct f; cbn [field_rule field_key] in *; rewrite Hf; simpl; auto 10.
    + split; [|discriminate]. now intros m [= <-].
  - split; [|discriminate]. now intros m [= <-].
Qed.

Lemma report_prints_witness :
  In (of_string (field_key payment_due_date) ++ of_string ": None")
     (report (parse_credit_card_statement
                (fun _ => Opened [PageText (of_string "SBI Card statement")])
                (of_string "sbi.pdf"))).
Proof.
  apply (@report_prints
           (fun _ => Opened [PageText (of_string "SBI Card statement")])
           (of_string "sbi.pdf") payment_due_date); reflexivity.
Defined.

(** ** The greedy wildcard of the Citi card-number rule *)

Section Longest.
Variable A : Type.
Variable ok : ascii -> bool.

(** A greedy repetition settles on the longest run after which the rest
    of the pattern matches. *)
Lemma rep_greedy_longest s : forall lo hi (k : str -> option A) v,
  rep_greedy ok lo hi s k = Some v ->
  exists x rest,
    s = x ++ rest /\ forallb ok x = true /\ k rest = Some v /\
    forall x' rest',
      s = x' ++ rest' -> forallb ok x' = true ->
      List.length x < List.length x' -> lo <= List.length x' ->
      within hi (List.length x') ->
      k rest' = None.
Proof.
  induction s as [|c s IH]; intros lo hi k v; cbn [rep_greedy].
  - intros H.
    assert (Hs : match lo with 0 => k [] | S _ => None end = Some v)
      by (destruct (reached hi); exact H).
    apply stop_some in Hs as [-> Hk].
    exists [], []. repeat split; auto.
    intros x' rest' Hx' _ Hlen. destruct x'; [simpl in Hlen; lia | discriminate].
  - destruct (reached hi) eqn:Hr.
    + intros Hs. apply stop_some in Hs as [-> Hk].
      exists [], (c :: s). repeat split; auto.
      intros x' rest' _ _ Hlen _ Hhi.
      apply (@within_reached hi _ Hr) in Hhi. simpl in Hlen. lia.
    + destruct (ok c) eqn:Hc.
      * destruct (rep_greedy ok (pred lo) (option_map pred hi) s k) as [w|] eqn:E.
        -- intros [= ->].
           apply IH in E as (x & rest & -> & Hx & Hk & Hlong).
           exists (c :: x), rest. simpl. rewrite Hc, Hx. repeat split; auto.
           intros x' rest' Hs Hx' Hlen Hlo Hhi.
           destruct x' as [|c' x']; [simpl in Hlen; lia|].
           simpl in Hs. injection Hs as <- Hs.
           simpl in Hx'. apply andb_true_iff in Hx' as [_ Hx'].
           apply within_pred_inv in Hhi as [_ Hhi].
           apply (Hlong x' rest' Hs Hx'); simpl in *; [lia | lia | exact Hhi].
        -- intros Hs. apply stop_some in Hs as [-> Hk].
           exists [], (c :: s). repeat split; auto.
           intros x' rest' Hs Hx' Hlen _ Hhi.
           destruct x' as [|c' x']; [simpl in Hlen; lia|].
           simpl in Hs. injection Hs as <- Hs. subst s.
           simpl in Hx'. apply andb_true_iff in Hx' as [_ Hx'].
           apply within_pred_inv in Hhi as [_ Hhi].
           destruct (k rest') eqn:Ek; [|reflexivity].
           exfalso.
           apply (@rep_greedy_complete A ok x' 0 (option_map pred hi) rest' k);
             [exact Hx' | lia | exact Hhi | congruence | exact E].
      * intros Hs. apply stop_some in Hs as [-> Hk].
        exists [], (c :: s). repeat split; auto.
        intros x' rest' Hs Hx' Hlen _ _.
        destruct x' as [|c' x']; [simpl in Hlen; lia|].
        simpl in Hs. injection Hs as <- _.
        simpl in Hx'. rewrite Hc in Hx'. discriminate.
Qed.

End Longest.

Lemma rmatch_seq_eq (A : Type) ic a b s g (k : str -> option str -> option A) :
  rmatch ic (Seq a b) s g k
  = rmatch ic a s g (fun s1 g1 => rmatch ic b s1 g1 k).
Proof. reflexivity. Qed.

Lemma rmatch_greedy_eq (A : Type) ic cs lo hi s g
      (k : str -> option str -> option A) :
  rmatch ic (Rep cs lo hi true) s g k
  = rep_greedy (accepts ic cs) lo hi s (fun s1 => k s1 g).
Proof. reflexivity. Qed.

Lemma rmatch_group_eq (A : Type) ic a s g (k : str -> option str -> option A) :
  rmatch ic (Group a) s g k
  = rmatch ic a s g
      (fun s1 _ => k s1 (Some (firstn (List.length s - List.length s1) s))).
Proof. reflexivity. Qed.

Lemma accepts_any ic c : accepts ic CDot c = cset_mem CDot c.
Proof.
  destruct ic; [|reflexivity].
  destruct c as [[] [] [] [] [] [] [] []]; reflexivity.
Qed.

Lemma lang_four_digits ic (d : str) :
  List.length d = 4 -> forallb is_digit d = true ->
  lang ic (Seq (Group (digits 4 4)) Eps) d.
Proof.
  intros Hl Hd. rewrite <- (app_nil_r d). constructor; [|constructor].
  constructor. constructor.
  - rewrite <- Hd. apply forallb_same. intros c. apply accepts_digit.
  - lia.
  - simpl. lia.
Qed.

Lemma citi_last_on_line_from t : forall pos mo v,
  search_from Pat.citi_card_last_4 t IGNORECASE pos = Some mo ->
  group1 mo = Some v ->
  exists a b,
    t = a ++ v ++ b /\
    forall u d w,
      v ++ b = u ++ d ++ w ->
      u <> [] -> forallb (cset_mem CDot) u = true ->
      List.length d = 4 -> forallb is_digit d = true ->
      False.
Proof.
  induction t as [|c t IH]; intros pos mo v H Hg.
  - vm_compute in H. discriminate.
  - cbn [search_from] in H.
    destruct (match_here Pat.citi_card_last_4 (c :: t) IGNORECASE) as [g|] eqn:E.
    + injection H as <-. cbn [group1] in Hg. subst g. clear IH.
      unfold match_here, Pat.citi_card_last_4, cat in E. cbn [fold_right] in E.
      rewrite rmatch_seq_eq in E.
      apply rmatch_sound in E as (x1 & rest1 & g1 & Hs1 & _ & E).
      rewrite rmatch_seq_eq in E.
      apply rmatch_sound in E as (x2 & rest2 & g2 & -> & _ & E).
      rewrite rmatch_seq_eq in E. unfold any_greedy in E.
      rewrite rmatch_greedy_eq in E.
      apply rep_greedy_longest in E as (x & rest & -> & Hx & E & Hlong).
      pose proof E as E0.
      rewrite rmatch_seq_eq, rmatch_group_eq in E0.
      apply rmatch_sound in E0 as (y & b & g3 & -> & Hy & E0).
      cbn [rmatch] in E0. rewrite firstn_consumed in E0.
      injection E0 as ->.
      exists (x1 ++ x2 ++ x), b. split.
      { rewrite Hs1. now rewrite <- !app_assoc. }
      intros u d w Hsplit Hu Hline Hlen Hd.
      assert (Hnone := Hlong (x ++ u) (d ++ w)).
      rewrite Hsplit, <- app_assoc in Hnone. specialize (Hnone eq_refl).
      rewrite forallb_app, Hx in Hnone.
      assert (Hok : forallb (accepts IGNORECASE CDot) u = true).
      { rewrite <- Hline. apply forallb_same. intros ch. apply accepts_any. }
      rewrite Hok in Hnone. specialize (Hnone eq_refl).
      rewrite length_app in Hnone.
      assert (Hupos : 0 < List.length u) by (destruct u; [now elim Hu | simpl; lia]).
      specialize (Hnone ltac:(lia) ltac:(lia) I).
      revert Hnone.
      apply (@rmatch_complete (option str) IGNORECASE _ d
               (lang_four_digits IGNORECASE d Hlen Hd) w g2
               (fun _ g => Some g)).
      discriminate.
    + destruct (IH (S pos) mo v H Hg) as (a & b & -> & Hlast).
      exists (c :: a), b. split; [reflexivity | exact Hlast].
Qed.


(** X16. The wildcard of the Citi card-number pattern is greedy: the
    four digits reported are the last four consecutive digits of the
    line, in the sense that no later place of the same line starts four
    digits. *)
Theorem citi_card_last_4_is_last_on_line (t v : str) :
  extract_card_last_4 CitiParser t = Some v ->
  exists a b,
    t = a ++ v ++ b /\
    forall u d w,
      v ++ b = u ++ d ++ w ->
      u <> [] -> forallb (cset_mem CDot) u = true ->
      List.length d = 4 -> forallb is_digit d = true ->
      False.
Proof.
  unfold extract_card_last_4, group1_or_none, search.
  destruct (search_from Pat.citi_card_last_4 t IGNORECASE 0) as [mo|] eqn:E;
    [|discriminate].
  intros Hg. exact (citi_last_on_line_from t 0 E Hg).
Qed.

Lemma citi_card_last_4_is_last_on_line_witness :
  exists a b,
    of_string "Citibank Account 1234 5678 9012 3456 closed"
    = a ++ of_string "3456" ++ b /\
    forall u d w,
      of_string "3456" ++ b = u ++ d ++ w ->
      u <> [] -> forallb (cset_mem CDot) u = true ->
      List.length d = 4 -> forallb is_digit d = true ->
      False.
Proof.
  apply (@citi_card_last_4_is_last_on_line
           "Citibank Account 1234 5678 9012 3456 closed" "3456").
  reflexivity.
Defined.

(** ** The lazy wildcard of the "New Balance" rules *)

Section Shortest.
Variable A : Type.
Variable ok : ascii -> bool.

(** A lazy repetition settles on the shortest run after which the rest
    of the pattern matches. *)
Lemma rep_lazy_shortest s : forall lo hi (k : str -> option A) v,
  rep_lazy ok lo hi s k = Some v ->
  exists x rest,
    s = x ++ rest /\ forallb ok x = true /\ k rest = Some v /\
    forall x' rest',
      s = x' ++ rest' -> List.length x' < List.length x ->
      lo <= List.length x' -> k rest' = None.
Proof.
  induction s as [|c s IH]; intros lo hi k v; cbn [rep_lazy].
  - destruct lo.
    + destruct (k []) eqn:Hk.
      * intros [= ->]. exists [], []. repeat split; auto.
        intros x' rest' _ Hlen. simpl in Hlen. lia.
      * destruct (reached hi); discriminate.
    + destruct (reached hi); discriminate.
  - assert (Hmore : forall (Hstop : lo = 0 -> k (c :: s) = None),
             (if reached hi then None
              else if ok c then rep_lazy ok (pred lo) (option_map pred hi) s k
                   else None) = Some v ->
             exists x rest,
               c :: s = x ++ rest /\ forallb ok x = true /\ k rest = Some v /\
               forall x' rest',
                 c :: s = x' ++ rest' -> List.length x' < List.length x ->
                 lo <= List.length x' -> k rest' = None).
    { intros Hstop. destruct (reached hi); [discriminate|].
      destruct (ok c) eqn:Hc; [|discriminate].
      intros E. apply IH in E as (x & rest & -> & Hx & Hk & Hshort).
      exists (c :: x), rest. simpl. rewrite Hc, Hx. repeat split; auto.
      intros x' rest' Hs Hlen Hlo. destruct x' as [|c' x'].
      - simpl in Hs. subst rest'. apply Hstop. simpl in Hlo. lia.
      - simpl in Hs. injection Hs as <- Hs.
        apply (Hshort x' rest' Hs); simpl in *; lia. }
    destruct lo.
    + destruct (k (c :: s)) eqn:Hk.
      * intros [= ->]. exists [], (c :: s). repeat split; auto.
        intros x' rest' _ Hlen. simpl in Hlen. lia.
      * apply Hmore. intros _. reflexivity.
    + apply Hmore. discriminate.
Qed.

End Shortest.

Lemma rmatch_lazy_eq (A : Type) ic cs lo hi s g
      (k : str -> option str -> option A) :
  rmatch ic (Rep cs lo hi false) s g k
  = rep_lazy (accepts ic cs) lo hi s (fun s1 => k s1 g).
Proof. reflexivity. Qed.

Lemma accepts_dollar ic c : accepts ic (CChar "$") c = true -> c = "$"%char.
Proof.
  destruct ic, c as [[] [] [] [] [] [] [] []]; try discriminate; reflexivity.
Qed.

Lemma lang_dollar ic x : lang ic (lit "$") x -> x = of_string "$".
Proof.
  unfold lit, of_string. simpl. intros H.
  inversion H as [| | a b x1 x2 H1 H2 | | | | | |]; subst.
  inversion H1 as [| cs c Hc | | | | | | |]; subst.
  inversion H2; subst. apply accepts_dollar in Hc. now subst c.
Qed.

Lemma lang_dollar_amount ic (m : str) :
  lang ic amount m ->
  lang ic (Seq (lit "$") (Seq (Group amount) Eps)) (of_string "$" ++ m).
Proof.
  intros Hm. constructor.
  - unfold lit, of_string. simpl.
    change ["$"%char] with (["$"%char] ++ []).
    constructor; [|constructor]. constructor. now destruct ic.
  - rewrite <- (app_nil_r m). constructor; [|constructor]. now constructor.
Qed.

Lemma lang_new_balance_label ic (x1 x2 x3 x4 : str) :
  lang ic (lit "New") x1 -> lang ic ws1 x2 ->
  lang ic (lit "Balance") x3 -> lang ic ws x4 ->
  lang ic new_balance_label (x1 ++ x2 ++ x3 ++ x4).
Proof.
  intros H1 H2 H3 H4. unfold new_balance_label, cat. cbn [fold_right].
  rewrite <- (app_nil_r x4). repeat (constructor; [assumption|]). constructor.
Qed.

Lemma new_balance_first_amount_from t : forall pos mo v,
  search_from Pat.chase_total_balance t IGNORECASE pos = Some mo ->
  group1 mo = Some v ->
  exists a l x b,
    t = a ++ l ++ x ++ of_string "$" ++ v ++ b /\
    no_match_before Pat.chase_total_balance t IGNORECASE (List.length a) = true /\
    lang IGNORECASE new_balance_label l /\
    lang IGNORECASE amount v /\
    forallb (cset_mem CDot) x = true /\
    forall u m w,
      x ++ of_string "$" ++ v ++ b = u ++ of_string "$" ++ m ++ w ->
      List.length u < List.length x ->
      ~ lang IGNORECASE amount m.
Proof.
  induction t as [|c t IH]; intros pos mo v H Hg.
  - vm_compute in H. discriminate.
  - cbn [search_from] in H.
    destruct (match_here Pat.chase_total_balance (c :: t) IGNORECASE) as [g|] eqn:E.
    + injection H as <-. cbn [group1] in Hg. subst g. clear IH.
      unfold match_here, Pat.chase_total_balance, cat in E. cbn [fold_right] in E.
      rewrite rmatch_seq_eq in E.
      apply rmatch_sound in E as (x1 & rest1 & g1 & Hs1 & Hl1 & E).
      rewrite rmatch_seq_eq in E.
      apply rmatch_sound in E as (x2 & rest2 & g2 & -> & Hl2 & E).
      rewrite rmatch_seq_eq in E.
      apply rmatch_sound in E as (x3 & rest3 & g3 & -> & Hl3 & E).
      rewrite rmatch_seq_eq in E.
      apply rmatch_sound in E as (x4 & rest4 & g4 & -> & Hl4 & E).
      rewrite rmatch_seq_eq in E. unfold any_lazy in E.
      rewrite rmatch_lazy_eq in E.
      apply rep_lazy_shortest in E as (x & rest & -> & Hx & E & Hshort).
      pose proof E as E0.
      rewrite rmatch_seq_eq in E0.
      apply rmatch_sound in E0 as (dollar & rest5 & g5 & -> & Hdollar & E0).
      apply lang_dollar in Hdollar. subst dollar.
      rewrite rmatch_seq_eq, rmatch_group_eq in E0.
      apply rmatch_sound in E0 as (y & b & g6 & -> & Hy & E0).
      cbn [rmatch] in E0. rewrite firstn_consumed in E0.
      injection E0 as ->.
      exists [], (x1 ++ x2 ++ x3 ++ x4), x, b.
      split; [|split; [|split; [|split; [|split]]]].
      { rewrite Hs1. simpl. now rewrite <- !app_assoc. }
      { reflexivity. }
      { now apply lang_new_balance_label. }
      { exact Hy. }
      { rewrite <- Hx. apply forallb_same. intros ch. symmetry. apply accepts_any. }
      intros u m w Hsplit Hlen Hm.
      assert (Hnone := Hshort u (of_string "$" ++ m ++ w)).
      specialize (Hnone Hsplit Hlen ltac:(lia)).
      revert Hnone. rewrite app_assoc.
      apply (@rmatch_complete (option str) IGNORECASE _ _
               (lang_dollar_amount Hm) w g4 (fun _ g => Some g)).
      discriminate.
    + destruct (IH (S pos) mo v H Hg) as (a & l & x & b & Ht & Hnm & Hlast).
      exists (c :: a), l, x, b. split; [now rewrite Ht|].
      split; [|exact Hlast].
      cbn [List.length no_match_before]. now rewrite E.
Qed.

(** X17. The wildcard of the "New Balance" pattern of Chase, Amex and
    Citi is lazy.  The balance reported is the first dollar amount after
    the label: the text splits into what precedes the leftmost place
    where the pattern matches, the label there, a stretch of the same
    line, a dollar sign and the balance; and within that stretch no
    dollar sign is followed by an amount. *)
Theorem new_balance_is_first_amount (cls : parser_class) (t v : str) :
  cls = ChaseParser \/ cls = AmexParser \/ cls = CitiParser ->
  extract_total_balance cls t = Some v ->
  exists a l x b,
    t = a ++ l ++ x ++ of_string "$" ++ v ++ b /\
    no_match_before Pat.chase_total_balance t IGNORECASE (List.length a) = true /\
    lang IGNORECASE new_balance_label l /\
    lang IGNORECASE amount v /\
    forallb (cset_mem CDot) x = true /\
    forall u m w,
      x ++ of_string "$" ++ v ++ b = u ++ of_string "$" ++ m ++ w ->
      List.length u < List.length x ->
      ~ lang IGNORECASE amount m.
Proof.
  intros Hcls Hv.
  assert (H : group1_or_none (search Pat.chase_total_balance t IGNORECASE) = Some v)
    by (destruct Hcls as [-> | [-> | ->]]; exact Hv).
  unfold group1_or_none, search in H.
  destruct (search_from Pat.chase_total_balance t IGNORECASE 0) as [mo|] eqn:E;
    [|discriminate].
  exact (new_balance_first_amount_from t 0 E H).
Qed.

Lemma new_balance_is_first_amount_witness :
  exists a l x b,
    of_string "American Express New Balance as of 01/05 $1,200.00 Minimum $35.00"
    = a ++ l ++ x ++ of_string "$" ++ of_string "1,200.00" ++ b /\
    no_match_before Pat.chase_total_balance
      "American Express New Balance as of 01/05 $1,200.00 Minimum $35.00"
      IGNORECASE (List.length a) = true /\
    lang IGNORECASE new_balance_label l /\
    lang IGNORECASE amount "1,200.00" /\
    forallb (cset_mem CDot) x = true /\
    forall u m w,
      x ++ of_string "$" ++ of_string "1,200.00" ++ b
      = u ++ of_string "$" ++ m ++ w ->
      List.length u < List.length x ->
      ~ lang IGNORECASE amount m.
Proof.
  apply (@new_balance_is_first_amount AmexParser
           "American Express New Balance as of 01/05 $1,200.00 Minimum $35.00"
           "1,200.00").
  - right. left. reflexivity.
  - reflexivity.
Defined.
